(** * Admin control plane, lock introspection and multipart ledger of
    the object-storage server: a shallow embedding of
    [cmd/admin-rpc-client.go], [cmd/lockinfo-handlers.go] and
    [cmd/fs-v1-multipart-common.go], with the properties of the
    specification stated and proved over it.

    Conventions of the embedding.
    - A Go [map] is a [gmap].  [for k, v := range m] visits every entry
      once in an order the language leaves open; the order is an explicit
      argument of type [rangeOrder], and every theorem holds for all of
      them.
    - [time.Time] is an instant in nanoseconds ([Z]); [time.Duration] is
      an [int64] of nanoseconds, and [Time.Sub] saturates at its bounds as
      the standard library documents.
    - A Go [error] value is [option error], [None] being [nil].
    - An index or slice expression out of range panics: the functions that
      contain one return [option], [None] being the panic. *)

From Stdlib Require Import ZArith String List Permutation Lia.
From stdpp Require Import gmap strings list fin_maps.

Open Scope Z_scope.

(** ** Go's [time] package, as far as the code uses it *)

Module time.

(** An instant, in nanoseconds since the zero [Time]. *)
Definition Time := Z.
(** An [int64] count of nanoseconds. *)
Definition Duration := Z.

Definition minDuration : Duration := - 2 ^ 63.
Definition maxDuration : Duration := 2 ^ 63 - 1.

(** [t.Sub(u)]: the duration [t - u]; when it does not fit in a
    [Duration], the maximum (or minimum) duration is returned. *)
Definition Sub (t u : Time) : Duration :=
  if t - u <? minDuration then minDuration
  else if maxDuration <? t - u then maxDuration
  else t - u.

(** [t.Add(d)]; instants have room to spare around any [int64] offset. *)
Definition Add (t : Time) (d : Duration) : Time := t + d.

Definition representable (t u : Time) : Prop :=
  minDuration <= t - u <= maxDuration.

End time.

(** ** Iteration order of [range] over a map *)

Record rangeOrder (K V : Type) `{Countable K} := RangeOrder {
  range : gmap K V → list (K * V);
  range_visits_once : ∀ m, range m ≡ₚ map_to_list m
}.
Arguments range {K V _ _} _ _.
Arguments range_visits_once {K V _ _} _ _.

(** Two orders, to run examples with: the map's own listing and its
    reverse. *)
Definition ascending {K V} `{Countable K} : rangeOrder K V :=
  {| range := map_to_list; range_visits_once := fun m => reflexivity _ |}.

Definition descending {K V} `{Countable K} : rangeOrder K V :=
  {| range := fun m => reverse (map_to_list m);
     range_visits_once := fun m => reverse_Permutation (map_to_list m) |}.

(** ** Errors *)

(** Modelled from the spec: the error values are declared outside the
    sources at hand.  [InsufficientReadQuorum] is the distinguished quorum
    condition of the aggregator, [errFileNotFound] the sentinel the
    multipart helpers compare against, and [errOther] stands for any other
    value (a transport or remote-side failure), told apart by its text. *)
Inductive error :=
| InsufficientReadQuorum
| errFileNotFound
| errOther (msg : string).

#[global] Instance error_eq_dec : EqDecision error.
Proof. solve_decision. Defined.

#[global] Instance error_countable : Countable error.
Proof.
  refine (inj_countable'
    (fun e => match e with
              | InsufficientReadQuorum => inl true
              | errFileNotFound => inl false
              | errOther s => inr s
              end)
    (fun c => match c with
              | inl true => InsufficientReadQuorum
              | inl false => errFileNotFound
              | inr s => errOther s
              end) _).
  by intros [].
Defined.

(** ** Lock table (read side) *)

(** Modelled from the spec: [lockType] and [statusType] are declared with
    the lock instrumentation, outside the sources at hand; section 3 gives
    them as the enumerations {Read, Write} and {Ready, Running, Blocked}. *)
Inductive lockType := debugRLockStr | debugWLockStr.
Inductive statusType := readyStatus | runningStatus | blockedStatus.

Record nsParam := NsParam { volume : string; path : string }.

#[global] Instance nsParam_eq_dec : EqDecision nsParam.
Proof. solve_decision. Defined.

#[global] Instance nsParam_countable : Countable nsParam.
Proof.
  refine (inj_countable' (fun p => (volume p, path p))
                         (fun c => NsParam c.1 c.2) _).
  by intros [].
Defined.

(** [lockStat]: the running counters, table-wide or per object. *)
Record lockStat := LockStat { total : Z; blocked : Z; granted : Z }.

Record debugLockInfo := DebugLockInfo {
  lType : lockType;
  lockSource : string;
  status : statusType;
  since : time.Time
}.

Record debugLockInfoPerVolumePath := DebugLockInfoPerVolumePath {
  obj_counters : lockStat;
  lockInfo : gmap string debugLockInfo
}.

(** The fields of [globalNSMutex] that the inspector reads (under
    [lockMapMutex], which the embedding leaves out: a call sees one state
    of the table). *)
Record nsLockMap := NsLockMap {
  counters : lockStat;
  debugLockMap : gmap nsParam debugLockInfoPerVolumePath
}.

(** ** Results of the inspector *)

Record OpsLockState := mkOpsLockState {
  OperationID : string;
  LockSource : string;
  LockType : lockType;
  Status : statusType;
  Since : time.Time;
  Duration : time.Duration
}.

Record VolumeLockInfo := mkVolumeLockInfo {
  Bucket : string;
  Object : string;
  LocksOnObject : Z;
  LocksAcquiredOnObject : Z;
  TotalBlockedLocks : Z;
  LockDetailsOnObject : list OpsLockState
}.

Record SystemLockState := mkSystemLockState {
  TotalLocks : Z;
  sys_TotalBlockedLocks : Z;
  TotalAcquiredLocks : Z;
  LocksInfoPerObject : list VolumeLockInfo
}.

#[global] Instance lockType_eq_dec : EqDecision lockType.
Proof. solve_decision. Defined.
#[global] Instance statusType_eq_dec : EqDecision statusType.
Proof. solve_decision. Defined.
#[global] Instance OpsLockState_eq_dec : EqDecision OpsLockState.
Proof. solve_decision. Defined.
#[global] Instance VolumeLockInfo_eq_dec : EqDecision VolumeLockInfo.
Proof. solve_decision. Defined.

(** ** Lock State Inspector ([cmd/lockinfo-handlers.go]) *)

Section Inspector.

(** The order in which [range] visits the table, and, for each object,
    the order in which it visits that object's operations. *)
Variable ro : rangeOrder nsParam debugLockInfoPerVolumePath.
Variable ri : nsParam → rangeOrder string debugLockInfo.

(** The lock table and the sample [time.Now().UTC()] of the call. *)
Variable globalNSMutex : nsLockMap.
Variable timeNow : time.Time.

Definition appendDetail (volLockInfo : VolumeLockInfo) (d : OpsLockState)
  : VolumeLockInfo :=
  {| Bucket := Bucket volLockInfo;
     Object := Object volLockInfo;
     LocksOnObject := LocksOnObject volLockInfo;
     LocksAcquiredOnObject := LocksAcquiredOnObject volLockInfo;
     TotalBlockedLocks := TotalBlockedLocks volLockInfo;
     LockDetailsOnObject := LockDetailsOnObject volLockInfo ++ [d] |}.

Definition appendObject (lockState : SystemLockState) (v : VolumeLockInfo)
  : SystemLockState :=
  {| TotalLocks := TotalLocks lockState;
     sys_TotalBlockedLocks := sys_TotalBlockedLocks lockState;
     TotalAcquiredLocks := TotalAcquiredLocks lockState;
     LocksInfoPerObject := LocksInfoPerObject lockState ++ [v] |}.

Definition getSystemLockState : SystemLockState * option error :=
  let lockState :=
    {| TotalAcquiredLocks := granted (counters globalNSMutex);
       TotalLocks := total (counters globalNSMutex);
       sys_TotalBlockedLocks := blocked (counters globalNSMutex);
       LocksInfoPerObject := [] |} in
  let lockState :=
    foldl (fun lockState '(param, debugLock) =>
      let volLockInfo :=
        {| Bucket := volume param;
           Object := path param;
           LocksOnObject := total (obj_counters debugLock);
           TotalBlockedLocks := blocked (obj_counters debugLock);
           LocksAcquiredOnObject := granted (obj_counters debugLock);
           LockDetailsOnObject := [] |} in
      let volLockInfo :=
        foldl (fun volLockInfo '(opsID, lockInfo) =>
          appendDetail volLockInfo
            {| OperationID := opsID;
               LockSource := lockSource lockInfo;
               LockType := lType lockInfo;
               Status := status lockInfo;
               Since := since lockInfo;
               Duration := time.Sub timeNow (since lockInfo) |})
          volLockInfo (range (ri param) (lockInfo debugLock)) in
      appendObject lockState volLockInfo)
    lockState (range ro (debugLockMap globalNSMutex)) in
  (lockState, None).

(** The body of the inner loop of [listLocksInfo]: the loop carries the
    struct [volLockInfo], whose detail slice grows, and the result slice
    [volumeLocks], which receives a copy of the struct at each record
    that is old enough.  A copy shares the backing array of the detail
    slice, but later appends only write past its length, so the details
    a copy shows are those present when it was taken. *)
Definition listLocksInfo_record (relTime : time.Duration)
    (st : VolumeLockInfo * list VolumeLockInfo)
    (rec : string * debugLockInfo) : VolumeLockInfo * list VolumeLockInfo :=
  let '(volLockInfo, volumeLocks) := st in
  let '(opsID, lockInfo) := rec in
  let elapsed := time.Sub timeNow (since lockInfo) in
  if elapsed <? relTime then (volLockInfo, volumeLocks)
  else
    let volLockInfo :=
      appendDetail volLockInfo
        {| OperationID := opsID;
           LockSource := lockSource lockInfo;
           LockType := lType lockInfo;
           Status := status lockInfo;
           Since := since lockInfo;
           Duration := elapsed |} in
    (volLockInfo, volumeLocks ++ [volLockInfo]).

Definition listLocksInfo (bucket prefix : string) (relTime : time.Duration)
  : list VolumeLockInfo :=
  foldl (fun volumeLocks '(param, debugLock) =>
    if negb (bool_decide (volume param = bucket)) then volumeLocks
    else if negb (String.prefix prefix (path param)) then volumeLocks
    else
      let volLockInfo :=
        {| Bucket := volume param;
           Object := path param;
           LocksOnObject := total (obj_counters debugLock);
           TotalBlockedLocks := blocked (obj_counters debugLock);
           LocksAcquiredOnObject := granted (obj_counters debugLock);
           LockDetailsOnObject := [] |} in
      snd (foldl (listLocksInfo_record relTime) (volLockInfo, volumeLocks)
                 (range (ri param) (lockInfo debugLock))))
    [] (range ro (debugLockMap globalNSMutex)).

End Inspector.

(** ** Admin RPC client ([cmd/admin-rpc-client.go]) *)

(** Modelled from the spec: [serviceSignal] is declared with the service
    lifecycle code, outside the sources at hand; section 3 gives it as the
    enumeration {Stop, Restart}. *)
Inductive serviceSignal := serviceStop | serviceRestart.

Record credential := Credential { AccessKey : string; SecretKey : string }.

Record authConfig := AuthConfig {
  accessKey : string;
  secretKey : string;
  serverAddr : string;
  secureConn : bool;
  serviceEndpoint : string;
  serviceName : string
}.

Record ListLocksQuery := mkListLocksQuery {
  q_bucket : string;
  q_prefix : string;
  q_relTime : time.Duration
}.

Record ListLocksReply := mkListLocksReply { volLocks : list VolumeLockInfo }.

(** [AuthRPCClient], the transport collaborator: a client is bound to one
    configuration, and what its [Call] returns is the peer's answer, per
    method; for ["Admin.ListLocks"] the reply it fills in comes with it.
    The service methods take no argument. *)
Record AuthRPCClient := mkAuthRPCClient {
  rpcConfig : authConfig;
  callService : string → option error;
  callListLocks : string → ListLocksQuery → ListLocksReply * option error
}.

(** The two implementations of the interface [adminCmdRunner]. *)
Inductive adminCmdRunner :=
| localAdminClient
| remoteAdminClient (rc : AuthRPCClient).

Record adminPeer := AdminPeer { addr : string; cmdRunner : adminCmdRunner }.

Abbreviation adminPeers := (list adminPeer).

(** [net/url.URL], of which the registry reads the host. *)
Record URL := mkURL { Host : string }.

(** Modelled from the spec: [reduceErrs] is defined outside the sources at
    hand.  Section 4.5, step 2 describes it: among the non-nil errors that
    are not ignorable, find the value that occurs most often, and its
    number of occurrences; with no such error the count is zero and the
    value nil.  The occurrences are counted in a map, and the maximum is
    taken in one pass over it, a later entry replacing the current one only
    when its count is strictly greater; which of several maximal values
    wins depends on the order of that pass. *)
Definition countErr (ignoredErrs : list error) (errorCounts : gmap error nat)
    (err : option error) : gmap error nat :=
  match err with
  | None => errorCounts
  | Some e =>
      if bool_decide (e ∈ ignoredErrs) then errorCounts
      else <[e := S (default 0%nat (errorCounts !! e))]> errorCounts
  end.

Definition maxErr (acc : nat * option error) (entry : error * nat)
    : nat * option error :=
  if (acc.1 <? entry.2)%nat then (entry.2, Some entry.1) else acc.

Definition reduceErrs (re : rangeOrder error nat)
    (errs : list (option error)) (ignoredErrs : list error)
    : nat * option error :=
  let errorCounts := foldl (countErr ignoredErrs) ∅ errs in
  foldl maxErr (0%nat, None) (range re errorCounts).

Section AdminClient.

(** Process-wide configuration: [globalMinioAddr],
    [serverConfig.GetCredential()], [isSSL()] and
    [path.Join(reservedBucket, adminPath)]; and [newAuthRPCClient], which
    decides what client, hence what peer, a configuration reaches. *)
Variable globalMinioAddr : string.
Variable serverCred : credential.
Variable isSSL : bool.
Variable adminServiceEndpoint : string.
Variable newAuthRPCClient : authConfig → AuthRPCClient.

(** The local lock table as the local runner finds it, and the orders
    of the [range] loops. *)
Variable ro : rangeOrder nsParam debugLockInfoPerVolumePath.
Variable ri : nsParam → rangeOrder string debugLockInfo.
Variable globalNSMutex : nsLockMap.
Variable timeNow : time.Time.
Variable re : rangeOrder error nat.
Variable rg : rangeOrder nsParam (list VolumeLockInfo).

Definition makeAdminPeers_step (st : adminPeers * gmap string bool) (ep : URL)
  : adminPeers * gmap string bool :=
  let '(servicePeers, seenAddr) := st in
  if bool_decide (Host ep = "") then (servicePeers, seenAddr)
  else if negb (default false (seenAddr !! Host ep)) then
    let cfg :=
      {| accessKey := AccessKey serverCred;
         secretKey := SecretKey serverCred;
         serverAddr := Host ep;
         secureConn := isSSL;
         serviceEndpoint := adminServiceEndpoint;
         serviceName := "Admin" |} in
    (servicePeers ++
       [ {| addr := Host ep;
            cmdRunner := remoteAdminClient (newAuthRPCClient cfg) |} ],
     <[Host ep := true]> seenAddr)
  else (servicePeers, seenAddr).

Definition makeAdminPeers (eps : list URL) : adminPeers :=
  let servicePeers :=
    [ {| addr := globalMinioAddr; cmdRunner := localAdminClient |} ] in
  let seenAddr := <[globalMinioAddr := true]> (∅ : gmap string bool) in
  (foldl makeAdminPeers_step (servicePeers, seenAddr) eps).1.

(** The methods of [adminCmdRunner].  [Stop] and [Restart] of the local
    client send on [globalServiceSignalCh], whose pending messages are the
    state threaded through. *)
Definition Stop (r : adminCmdRunner) (ch : list serviceSignal)
  : option error * list serviceSignal :=
  match r with
  | localAdminClient => (None, ch ++ [serviceStop])
  | remoteAdminClient rc => (callService rc "Admin.Shutdown", ch)
  end.

Definition Restart (r : adminCmdRunner) (ch : list serviceSignal)
  : option error * list serviceSignal :=
  match r with
  | localAdminClient => (None, ch ++ [serviceRestart])
  | remoteAdminClient rc => (callService rc "Admin.Restart", ch)
  end.

Definition ListLocks (r : adminCmdRunner) (bucket prefix : string)
    (relTime : time.Duration) : list VolumeLockInfo * option error :=
  match r with
  | localAdminClient =>
      (listLocksInfo ro ri globalNSMutex timeNow bucket prefix relTime, None)
  | remoteAdminClient rc =>
      let listArgs :=
        {| q_bucket := bucket; q_prefix := prefix; q_relTime := relTime |} in
      let '(reply, err) := callListLocks rc "Admin.ListLocks" listArgs in
      match err with
      | Some e => ([], Some e)
      | None => (volLocks reply, None)
      end
  end.

Definition invokeServiceCmd (cp : adminPeer) (cmd : serviceSignal)
    (ch : list serviceSignal) : option error * list serviceSignal :=
  match cmd with
  | serviceStop => Stop (cmdRunner cp) ch
  | serviceRestart => Restart (cmdRunner cp) ch
  end.

(** [sendServiceCmd], with the local slice [errs] as it stands when the
    function returns.  The goroutines write disjoint slots of [errs];
    they are run here in index order, one of the possible schedules. *)
Definition sendServiceCmd_remote (cmd : serviceSignal)
    (st : list (option error) * list serviceSignal) (ip : nat * adminPeer)
  : list (option error) * list serviceSignal :=
  let '(errs, ch) := st in
  let '(idx, remotePeer) := ip in
  let '(err, ch) := invokeServiceCmd remotePeer cmd ch in
  (<[(idx + 1)%nat := err]> errs, ch).

Definition sendServiceCmd_errs (cps : adminPeers) (cmd : serviceSignal)
    (ch : list serviceSignal)
  : option (list (option error) * list serviceSignal) :=
  let errs := replicate (length cps) (None : option error) in
  match cps with
  | [] => None
  | cps0 :: remotePeers =>
      let '(errs, ch) :=
        foldl (sendServiceCmd_remote cmd) (errs, ch) (imap pair remotePeers) in
      let '(err, ch) := invokeServiceCmd cps0 cmd ch in
      Some (<[0%nat := err]> errs, ch)
  end.

(** [sendServiceCmd] proper: it has no result; what remains of a call is
    its effect on the signal channel. *)
Definition sendServiceCmd (cps : adminPeers) (cmd : serviceSignal)
    (ch : list serviceSignal) : option (list serviceSignal) :=
  snd <$> sendServiceCmd_errs cps cmd ch.

Definition listPeerLocksInfo_remote (bucket prefix : string)
    (relTime : time.Duration)
    (st : list (list VolumeLockInfo) * list (option error))
    (ip : nat * adminPeer)
  : list (list VolumeLockInfo) * list (option error) :=
  let '(allLocks, errs) := st in
  let '(i, remotePeer) := ip in
  let idx := (i + 1)%nat in
  let '(locks, err) := ListLocks (cmdRunner remotePeer) bucket prefix relTime in
  (<[idx := locks]> allLocks, <[idx := err]> errs).

Definition groupLock (paramLockMap : gmap nsParam (list VolumeLockInfo))
    (lockInfo : VolumeLockInfo) : gmap nsParam (list VolumeLockInfo) :=
  let param := {| volume := Bucket lockInfo; path := Object lockInfo |} in
  <[param := default [] (paramLockMap !! param) ++ [lockInfo]]> paramLockMap.

Definition mergeLocks (allLocks : list (list VolumeLockInfo))
  : list VolumeLockInfo :=
  let paramLockMap :=
    foldl (fun m nodeLocks => foldl groupLock m nodeLocks) ∅ allLocks in
  foldl (fun groupedLockInfos '(_, volLocks) => groupedLockInfos ++ volLocks)
        [] (range rg paramLockMap).

(** The result is the pair of Go: a slice, [None] being [nil], and an
    error. *)
Definition listPeerLocksInfo (peers : adminPeers) (bucket prefix : string)
    (relTime : time.Duration)
  : option (option (list VolumeLockInfo) * option error) :=
  let allLocks := replicate (length peers) ([] : list VolumeLockInfo) in
  let errs := replicate (length peers) (None : option error) in
  match peers with
  | [] => None
  | localPeer :: remotePeers =>
      let '(allLocks, errs) :=
        foldl (listPeerLocksInfo_remote bucket prefix relTime)
              (allLocks, errs) (imap pair remotePeers) in
      let '(locks, err) := ListLocks (cmdRunner localPeer) bucket prefix relTime in
      let allLocks := <[0%nat := locks]> allLocks in
      let errs := <[0%nat := err]> errs in
      let '(errCount, err) := reduceErrs re errs [] in
      match err with
      | Some e =>
          if (length peers / 2 + 1 <=? errCount)%nat then Some (None, Some e)
          else Some (None, Some InsufficientReadQuorum)
      | None => Some (Some (mergeLocks allLocks), None)
      end
  end.

End AdminClient.

(** ** Multipart upload ledger ([cmd/fs-v1-multipart-common.go]) *)

Record fsObjects := FsObjects { fsPath : string }.

(** What a call leaves behind besides its result: a line logged by
    [errorIf], a ledger written by [WriteTo], a file deleted by
    [fsDeleteFile]. *)
Inductive fsEffect (uploadsV1 : Type) :=
| effLog (err : error) (msg : string)
| effWriteTo (u : uploadsV1)
| effDeleteFile (basePath deletePath : string).
Arguments effLog {uploadsV1} _ _.
Arguments effWriteTo {uploadsV1} _.
Arguments effDeleteFile {uploadsV1} _ _.

Section Multipart.

(** Helpers and constants defined outside the sources at hand, taken as
    they come: the path join, the names of the metadata files and of the
    multipart bucket, the file information [os.FileInfo], and the ledger
    [uploadsV1] with its two methods. *)
Variable pathJoin : list string → string.
Variable uploadsJSONFile fsMetaJSONFile minioMetaMultipartBucket : string.
Variable FileInfo : Type.
Variable uploadsV1 : Type.
Variable RemoveUploadID : string → uploadsV1 → uploadsV1.
Variable IsEmpty : uploadsV1 → bool.

(** The outcome of [fsStatFile] on each path. *)
Variable fsStatFile : string → FileInfo * option error.

Definition errorIf (err : option error) (msg : string)
  : list (fsEffect uploadsV1) :=
  match err with
  | Some e => [effLog e msg]
  | None => []
  end.

Definition isMultipartUpload (fs : fsObjects) (bucket prefix : string)
  : bool * list (fsEffect uploadsV1) :=
  let uploadsIDPath := pathJoin [fsPath fs; bucket; prefix; uploadsJSONFile] in
  let '(_, err) := fsStatFile uploadsIDPath in
  match err with
  | Some e =>
      if bool_decide (e = errFileNotFound) then (false, [])
      else (false, errorIf err ("Unable to access uploads.json " ++ uploadsIDPath))
  | None => (true, [])
  end.

Definition isUploadIDExists (fs : fsObjects) (bucket object uploadID : string)
  : bool * list (fsEffect uploadsV1) :=
  let uploadIDPath := pathJoin [bucket; object; uploadID] in
  let '(_, err) :=
    fsStatFile
      (pathJoin [fsPath fs; minioMetaMultipartBucket; uploadIDPath; fsMetaJSONFile]) in
  match err with
  | Some e =>
      if bool_decide (e = errFileNotFound) then (false, [])
      else (false, errorIf err ("Unable to access upload id " ++ uploadIDPath))
  | None => (true, [])
  end.

(** [removeUploadID], given the outcomes of the three operations on the
    locked file: [readFrom] is what [ReadFrom] decodes into [uploadIDs]
    and its error, [deleteErr] what [fsDeleteFile] returns, [writeErr]
    what [WriteTo] returns. *)
Definition removeUploadID (fs : fsObjects) (bucket object uploadID : string)
    (readFrom : uploadsV1 * option error) (deleteErr writeErr : option error)
  : option error * list (fsEffect uploadsV1) :=
  let '(uploadIDs, err) := readFrom in
  match err with
  | Some e => (Some e, [])
  | None =>
      let uploadIDs := RemoveUploadID uploadID uploadIDs in
      if IsEmpty uploadIDs then
        let uploadsPath := pathJoin [bucket; object; uploadsJSONFile] in
        let multipartPathBucket :=
          pathJoin [fsPath fs; minioMetaMultipartBucket] in
        let uploadPathBucket := pathJoin [multipartPathBucket; uploadsPath] in
        (deleteErr, [effDeleteFile multipartPathBucket uploadPathBucket])
      else (writeErr, [effWriteTo uploadIDs])
  end.

End Multipart.

(** ** Vocabulary of the statements *)

(** The detail record the inspector builds for the operation [rec] of the
    lock table, at the sample [timeNow]. *)
Definition detailOf (timeNow : time.Time) (rec : string * debugLockInfo)
  : OpsLockState :=
  {| OperationID := rec.1;
     LockSource := lockSource rec.2;
     LockType := lType rec.2;
     Status := status rec.2;
     Since := since rec.2;
     Duration := time.Sub timeNow (since rec.2) |}.

(** The entry of [listLocksInfo] for an object, before any detail. *)
Definition objectInfo (param : nsParam) (debugLock : debugLockInfoPerVolumePath)
  : VolumeLockInfo :=
  {| Bucket := volume param;
     Object := path param;
     LocksOnObject := total (obj_counters debugLock);
     TotalBlockedLocks := blocked (obj_counters debugLock);
     LocksAcquiredOnObject := granted (obj_counters debugLock);
     LockDetailsOnObject := [] |}.

(** The filter of [listLocksInfo] on objects, and on operations. *)
Definition matchesObject (bucket prefix : string) (param : nsParam) : bool :=
  bool_decide (volume param = bucket) && String.prefix prefix (path param).

Definition oldEnough (timeNow : time.Time) (relTime : time.Duration)
    (rec : string * debugLockInfo) : bool :=
  negb (time.Sub timeNow (since rec.2) <? relTime).

(** The entries a run of the inner loop appends, for the details [ds] that
    pass the filter, starting from the struct [v]. *)
Fixpoint cumulative (v : VolumeLockInfo) (ds : list OpsLockState)
  : list VolumeLockInfo :=
  match ds with
  | [] => []
  | d :: ds => appendDetail v d :: cumulative (appendDetail v d) ds
  end.

(** The entries [listLocksInfo] emits for one object of the table, and the
    entry [getSystemLockState] builds for it. *)
Definition objectEntries (ri : nsParam → rangeOrder string debugLockInfo)
    (timeNow : time.Time) (bucket prefix : string) (relTime : time.Duration)
    (entry : nsParam * debugLockInfoPerVolumePath) : list VolumeLockInfo :=
  if matchesObject bucket prefix entry.1 then
    cumulative (objectInfo entry.1 entry.2)
      (detailOf timeNow <$>
         filter (fun r => oldEnough timeNow relTime r)
                (range (ri entry.1) (lockInfo entry.2)))
  else [].

Definition objectState (ri : nsParam → rangeOrder string debugLockInfo)
    (timeNow : time.Time) (entry : nsParam * debugLockInfoPerVolumePath)
  : VolumeLockInfo :=
  foldl appendDetail (objectInfo entry.1 entry.2)
        (detailOf timeNow <$> range (ri entry.1) (lockInfo entry.2)).

(** An entry of the list [out] is emitted for the record [d] of the object
    [param]: it names that object, and [d] is the detail appended just
    before the entry was. *)
Definition emittedFor (out : list VolumeLockInfo) (param : nsParam)
    (d : OpsLockState) : Prop :=
  ∃ v, v ∈ out ∧ Bucket v = volume param ∧ Object v = path param
       ∧ last (LockDetailsOnObject v) = Some d.

(** All the detail records that occur in a list of entries. *)
Definition detailsOf (out : list VolumeLockInfo) : list OpsLockState :=
  mjoin (LockDetailsOnObject <$> out).

(** The entries of [out] that name the object [param]. *)
Definition entriesOf (param : nsParam) (out : list VolumeLockInfo)
  : list VolumeLockInfo :=
  filter (fun v => Bucket v = volume param ∧ Object v = path param) out.

(** ** Lock tables of the examples *)

(** One object with two running operations. *)
Definition op1 : debugLockInfo :=
  DebugLockInfo debugRLockStr "GetObject" runningStatus 100.
Definition op2 : debugLockInfo :=
  DebugLockInfo debugRLockStr "GetObject" runningStatus 200.

Definition twoOps : debugLockInfoPerVolumePath :=
  {| obj_counters := LockStat 2 0 2;
     lockInfo := <["op1" := op1]> {["op2" := op2]} |}.

Definition tableTwoOps : nsLockMap :=
  {| counters := LockStat 2 0 2;
     debugLockMap := {[ NsParam "b" "o" := twoOps ]} |}.

(** One operation stamped five nanoseconds after the sample the inspector
    will take (the wall clock was set back in between). *)
Definition opAhead : debugLockInfo :=
  DebugLockInfo debugWLockStr "PutObject" runningStatus 10.

Definition oneOpAhead : debugLockInfoPerVolumePath :=
  {| obj_counters := LockStat 1 0 1;
     lockInfo := {["op1" := opAhead]} |}.

Definition tableAhead : nsLockMap :=
  {| counters := LockStat 1 0 1;
     debugLockMap := {[ NsParam "b" "o" := oneOpAhead ]} |}.

(** An operation whose [since] is the zero [Time], next to one stamped a
    second before the sample [sampleNow], which lies some two thousand
    years after the zero [Time]. *)
Definition sampleNow : time.Time := 63650000000 * 10 ^ 9.

Definition opZero : debugLockInfo :=
  DebugLockInfo debugWLockStr "PutObject" blockedStatus 0.
Definition opRecent : debugLockInfo :=
  DebugLockInfo debugRLockStr "GetObject" runningStatus (sampleNow - 10 ^ 9).

Definition zeroAndRecent : debugLockInfoPerVolumePath :=
  {| obj_counters := LockStat 2 1 1;
     lockInfo := <["op1" := opZero]> {["op2" := opRecent]} |}.

Definition tableZero : nsLockMap :=
  {| counters := LockStat 2 1 1;
     debugLockMap := {[ NsParam "b" "o" := zeroAndRecent ]} |}.

(** ** Vocabulary of the registry *)

(** The distinct elements of a list, each at the place of its first
    occurrence. *)
Definition firstOccurrences (l : list string) : list string :=
  reverse (remove_dups (reverse l)).

(** The addresses the specification gives the registry: the local address,
    then the non-empty hosts of the endpoints, duplicates collapsed to the
    first occurrence. *)
Definition registryAddrs (globalMinioAddr : string) (eps : list URL)
  : list string :=
  firstOccurrences
    (globalMinioAddr :: filter (fun h => h ≠ ""%string) (Host <$> eps)).

Definition localPeer (globalMinioAddr : string) : adminPeer :=
  {| addr := globalMinioAddr; cmdRunner := localAdminClient |}.

(** The peer [makeAdminPeers] builds for a remote host. *)
Definition remotePeer (serverCred : credential) (isSSL : bool)
    (adminServiceEndpoint : string)
    (newAuthRPCClient : authConfig → AuthRPCClient) (host : string)
  : adminPeer :=
  {| addr := host;
     cmdRunner :=
       remoteAdminClient
         (newAuthRPCClient
            {| accessKey := AccessKey serverCred;
               secretKey := SecretKey serverCred;
               serverAddr := host;
               secureConn := isSSL;
               serviceEndpoint := adminServiceEndpoint;
               serviceName := "Admin" |}) |}.

(** A network for the examples: every peer is reachable and holds no
    lock, but the one at ["n3:9000"], which refuses the connection. *)
Definition exampleClient (cfg : authConfig) : AuthRPCClient :=
  let down := bool_decide (serverAddr cfg = "n3:9000"%string) in
  let err := if down then Some (errOther "connection refused") else None in
  {| rpcConfig := cfg;
     callService := fun _ => err;
     callListLocks := fun _ _ => (mkListLocksReply [], err) |}.

(** Endpoints of the examples: the local address twice, an empty host,
    and two remote hosts, one of them twice. *)
Definition exampleEndpoints : list URL :=
  [ mkURL "n2:9000"; mkURL "n1:9000"; mkURL ""; mkURL "n3:9000";
    mkURL "n2:9000"; mkURL "n1:9000" ].

(** What the loop of [makeAdminPeers] maintains: the addresses of the
    peers are those of the specification, [seenAddr] holds exactly them,
    the local peer stays in front and the others are remote peers of
    non-empty address. *)
Definition registryInv (globalMinioAddr : string) (serverCred : credential)
    (isSSL : bool) (adminServiceEndpoint : string)
    (newAuthRPCClient : authConfig → AuthRPCClient)
    (eps : list URL) (st : adminPeers * gmap string bool) : Prop :=
  addr <$> st.1 = registryAddrs globalMinioAddr eps
  ∧ (∀ h, default false (st.2 !! h) = true ↔ h ∈ addr <$> st.1)
  ∧ st.1 !! 0%nat = Some (localPeer globalMinioAddr)
  ∧ (∀ i p, st.1 !! S i = Some p →
            p = remotePeer serverCred isSSL adminServiceEndpoint
                           newAuthRPCClient (addr p)
            ∧ addr p ≠ ""%string).

(** ** Vocabulary of the fan-out *)

(** The number of peers that returned the error [e]. *)
Definition occurrences (e : error) (errs : list (option error)) : nat :=
  length (filter (fun x => x = Some e) errs).

(** The majority threshold for [n] peers. *)
Definition quorum (n : nat) : nat := (n / 2 + 1)%nat.

(** What a peer answers to a service command, and what running the command
    on it sends on the local signal channel. *)
Definition serviceOutcome (cmd : serviceSignal) (cp : adminPeer)
  : option error :=
  match cmdRunner cp with
  | localAdminClient => None
  | remoteAdminClient rc =>
      callService rc match cmd with
                     | serviceStop => "Admin.Shutdown"
                     | serviceRestart => "Admin.Restart"
                     end
  end.

Definition posted (cmd : serviceSignal) (cp : adminPeer) : list serviceSignal :=
  match cmdRunner cp with
  | localAdminClient => [cmd]
  | remoteAdminClient _ => []
  end.

(** All the entries held in a grouping map. *)
Definition flatLocks (m : gmap nsParam (list VolumeLockInfo))
  : list VolumeLockInfo :=
  mjoin (map_to_list m).*2.

(** Peers of the examples: the local node and two remote ones, of which
    [n3] refuses the connection; a registry where [n2] does as well. *)
Definition examplePeers : adminPeers :=
  makeAdminPeers "n1:9000" (Credential "key" "secret") true "minio/admin"
                 exampleClient exampleEndpoints.

Definition refusing (host : string) : adminPeer :=
  {| addr := host;
     cmdRunner :=
       remoteAdminClient
         {| rpcConfig := AuthConfig "key" "secret" host true "minio/admin" "Admin";
            callService := fun _ => Some (errOther "connection refused");
            callListLocks := fun _ _ =>
              (mkListLocksReply [], Some (errOther "connection refused")) |} |}.

Definition answering (host : string) (locks : list VolumeLockInfo) : adminPeer :=
  {| addr := host;
     cmdRunner :=
       remoteAdminClient
         {| rpcConfig := AuthConfig "key" "secret" host true "minio/admin" "Admin";
            callService := fun _ => None;
            callListLocks := fun _ _ => (mkListLocksReply locks, None) |} |}.

Definition lockOn (bucket object : string) : VolumeLockInfo :=
  {| Bucket := bucket; Object := object; LocksOnObject := 1;
     LocksAcquiredOnObject := 1; TotalBlockedLocks := 0;
     LockDetailsOnObject :=
       [ {| OperationID := "op"; LockSource := "GetObject";
            LockType := debugRLockStr; Status := runningStatus;
            Since := 100; Duration := 900 |} ] |}.

(** What a peer answers to [ListLocks]: its entries and its error. *)
Definition peerLocks (ro : rangeOrder nsParam debugLockInfoPerVolumePath)
    (ri : nsParam → rangeOrder string debugLockInfo)
    (globalNSMutex : nsLockMap) (timeNow : time.Time)
    (bucket prefix : string) (relTime : time.Duration) (cp : adminPeer)
  : list VolumeLockInfo :=
  (ListLocks ro ri globalNSMutex timeNow (cmdRunner cp) bucket prefix relTime).1.

Definition peerErr (ro : rangeOrder nsParam debugLockInfoPerVolumePath)
    (ri : nsParam → rangeOrder string debugLockInfo)
    (globalNSMutex : nsLockMap) (timeNow : time.Time)
    (bucket prefix : string) (relTime : time.Duration) (cp : adminPeer)
  : option error :=
  (ListLocks ro ri globalNSMutex timeNow (cmdRunner cp) bucket prefix relTime).2.

(** ** The remaining functions of the three files *)

(** [initGlobalAdminPeers]: the assignment to the global
    [globalAdminPeers], whose previous value is lost. *)
Definition initGlobalAdminPeers (globalMinioAddr : string)
    (serverCred : credential) (isSSL : bool) (adminServiceEndpoint : string)
    (newAuthRPCClient : authConfig → AuthRPCClient)
    (eps : list URL) (globalAdminPeers : adminPeers) : adminPeers :=
  makeAdminPeers globalMinioAddr serverCred isSSL adminServiceEndpoint
                 newAuthRPCClient eps.

Section MultipartAdd.

(** Defined outside the sources at hand, and taken as they come: the
    ledger [uploadsV1] with its constructor and [AddUploadID], the
    unwrapping [errorCause], and the value [io.EOF]. *)
Variable uploadsV1 : Type.
Variable newUploadsV1 : string → uploadsV1.
Variable AddUploadID : string → time.Time → uploadsV1 → uploadsV1.
Variable errorCause : option error → option error.
Variable EOF : error.

(** [addUploadID], given the outcomes of the two operations on the locked
    file: [readFrom] is what [ReadFrom] leaves in [uploadIDs] and its
    error, [writeErr] what [WriteTo] returns. *)
Definition addUploadID (fs : fsObjects) (bucket object uploadID : string)
    (initiated : time.Time) (readFrom : uploadsV1 * option error)
    (writeErr : option error) : option error * list (fsEffect uploadsV1) :=
  let '(uploadIDs, err) := readFrom in
  if bool_decide (err ≠ None) && bool_decide (errorCause err ≠ Some EOF)
  then (err, [])
  else
    let uploadIDs :=
      if bool_decide (errorCause err = Some EOF) then newUploadsV1 "fs"
      else uploadIDs in
    let uploadIDs := AddUploadID uploadID initiated uploadIDs in
    (writeErr, [effWriteTo uploadIDs]).

End MultipartAdd.

(** ** Vocabulary of the further properties *)

(** The object an entry names. *)
Definition lockKey (v : VolumeLockInfo) : nsParam :=
  {| volume := Bucket v; path := Object v |}.

(** The operation records of an object that [listLocksInfo] lets through,
    and their number over the whole table. *)
Definition passingRecords (timeNow : time.Time) (bucket prefix : string)
    (relTime : time.Duration) (entry : nsParam * debugLockInfoPerVolumePath)
  : list (string * debugLockInfo) :=
  if matchesObject bucket prefix entry.1 then
    filter (fun r => oldEnough timeNow relTime r) (map_to_list (lockInfo entry.2))
  else [].

Definition passingCount (timeNow : time.Time) (bucket prefix : string)
    (relTime : time.Duration) (g : nsLockMap) : nat :=
  sum_list (length ∘ passingRecords timeNow bucket prefix relTime
              <$> map_to_list (debugLockMap g)).

(** A table with an object that no operation holds, next to the object
    of [tableTwoOps]. *)
Definition noOps : debugLockInfoPerVolumePath :=
  {| obj_counters := LockStat 0 0 0; lockInfo := ∅ |}.

Definition tableIdle : nsLockMap :=
  {| counters := LockStat 2 0 2;
     debugLockMap := <[NsParam "b" "idle" := noOps]> {[ NsParam "b" "o" := twoOps ]} |}.

(** A ledger for the examples: the upload ids with their initiation
    times, the latest last. *)
Definition listLedger : Type := list (string * time.Time).

Definition listLedger_add (uploadID : string) (initiated : time.Time)
    (u : listLedger) : listLedger :=
  u ++ [(uploadID, initiated)].

Definition listLedger_remove (uploadID : string) (u : listLedger) : listLedger :=
  filter (fun x => x.1 ≠ uploadID) u.

Definition listLedger_isEmpty (u : listLedger) : bool :=
  bool_decide (u = []).

(** An unwrapping for the examples: errors are not wrapped. *)
Definition plainCause (err : option error) : option error := err.


(** * Properties *)

(** ** Loops *)

Lemma range_lookup {K V} `{Countable K} (r : rangeOrder K V) (m : gmap K V) k v :
  (k, v) ∈ range r m ↔ m !! k = Some v.
Proof. rewrite (range_visits_once r m). apply elem_of_map_to_list. Qed.

(** ** Saturating subtraction *)

Lemma Sub_representable t u :
  time.representable t u → time.Sub t u = t - u.
Proof.
  unfold time.representable, time.Sub. intros [Hlo Hhi].
  destruct (Z.ltb_spec (t - u) time.minDuration); [lia|].
  destruct (Z.ltb_spec time.maxDuration (t - u)); [lia|done].
Qed.

Lemma Sub_nonneg t u : 0 <= time.Sub t u ↔ u <= t.
Proof.
  unfold time.Sub, time.minDuration, time.maxDuration.
  destruct (Z.ltb_spec (t - u) (- 2 ^ 63)); [lia|].
  destruct (Z.ltb_spec (2 ^ 63 - 1) (t - u)); lia.
Qed.

Lemma Sub_bounds t u :
  time.minDuration <= time.Sub t u <= time.maxDuration.
Proof.
  unfold time.Sub, time.minDuration, time.maxDuration.
  destruct (Z.ltb_spec (t - u) (- 2 ^ 63)); [lia|].
  destruct (Z.ltb_spec (2 ^ 63 - 1) (t - u)); lia.
Qed.

(** Above the least duration, comparing the saturated difference with a
    threshold is comparing the difference itself. *)
Lemma Sub_ge_threshold t u (relTime : time.Duration) :
  time.minDuration < relTime → relTime <= time.maxDuration →
  (relTime <= time.Sub t u ↔ relTime <= t - u).
Proof.
  unfold time.Sub, time.minDuration, time.maxDuration.
  destruct (Z.ltb_spec (t - u) (- 2 ^ 63)); [lia|].
  destruct (Z.ltb_spec (2 ^ 63 - 1) (t - u)); lia.
Qed.

(** ** The inspector's loops, in closed form *)

Section InspectorFacts.

Variable ro : rangeOrder nsParam debugLockInfoPerVolumePath.
Variable ri : nsParam → rangeOrder string debugLockInfo.
Variable globalNSMutex : nsLockMap.
Variable timeNow : time.Time.

Lemma cumulative_length v ds : length (cumulative v ds) = length ds.
Proof. revert v. induction ds as [|d ds IH]; intros v; simpl; [done|]. by rewrite IH. Qed.

(** Every entry of a run carries the object's name and counters, and some
    prefix of the details, never an empty one. *)
Lemma cumulative_elem v0 ds v :
  v ∈ cumulative v0 ds ↔
  ∃ k, (k < length ds)%nat ∧ v = foldl appendDetail v0 (take (S k) ds).
Proof.
  revert v0. induction ds as [|d ds IH]; intros v0; simpl.
  - split; [by intros ?%elem_of_nil | intros (k & ? & _); lia].
  - rewrite elem_of_cons, IH. split.
    + intros [-> | (k & Hk & ->)].
      * exists 0%nat. split; [lia | done].
      * exists (S k). split; [lia | done].
    + intros ([|k] & Hk & ->).
      * by left.
      * right. exists k. split; [lia | done].
Qed.

Lemma foldl_appendDetail v ds :
  foldl appendDetail v ds
  = {| Bucket := Bucket v; Object := Object v;
       LocksOnObject := LocksOnObject v;
       LocksAcquiredOnObject := LocksAcquiredOnObject v;
       TotalBlockedLocks := TotalBlockedLocks v;
       LockDetailsOnObject := LockDetailsOnObject v ++ ds |}.
Proof.
  revert v. induction ds as [|d ds IH]; intros v; simpl.
  - rewrite app_nil_r. by destruct v.
  - rewrite IH. simpl. by rewrite <- app_assoc.
Qed.

Lemma listLocksInfo_inner relTime v out l :
  foldl (listLocksInfo_record timeNow relTime) (v, out) l
  = let ds := detailOf timeNow <$> filter (fun r => oldEnough timeNow relTime r) l in
    (foldl appendDetail v ds, out ++ cumulative v ds).
Proof.
  revert v out. induction l as [|[opsID li] l IH]; intros v out; simpl.
  - by rewrite app_nil_r.
  - rewrite filter_cons.
    destruct (decide (oldEnough timeNow relTime (opsID, li))) as [Ho|Ho];
      unfold oldEnough in Ho; simpl in Ho;
      destruct (time.Sub timeNow (since li) <? relTime) eqn:E;
      simpl in Ho; try done.
    rewrite IH. simpl. by rewrite <- app_assoc.
Qed.

Lemma listLocksInfo_closed bucket prefix relTime :
  listLocksInfo ro ri globalNSMutex timeNow bucket prefix relTime
  = mjoin (objectEntries ri timeNow bucket prefix relTime
             <$> range ro (debugLockMap globalNSMutex)).
Proof.
  unfold listLocksInfo.
  generalize (range ro (debugLockMap globalNSMutex)). intros l.
  enough (∀ out,
    foldl (fun volumeLocks '(param, debugLock) =>
      if negb (bool_decide (volume param = bucket)) then volumeLocks
      else if negb (String.prefix prefix (path param)) then volumeLocks
      else snd (foldl (listLocksInfo_record timeNow relTime)
                  ({| Bucket := volume param; Object := path param;
                      LocksOnObject := total (obj_counters debugLock);
                      TotalBlockedLocks := blocked (obj_counters debugLock);
                      LocksAcquiredOnObject := granted (obj_counters debugLock);
                      LockDetailsOnObject := [] |}, volumeLocks)
                  (range (ri param) (lockInfo debugLock)))) out l
    = out ++ mjoin (objectEntries ri timeNow bucket prefix relTime <$> l)) as Hgen
    by apply (Hgen []).
  induction l as [|[param dl] l IH]; intros out; simpl.
  - by rewrite app_nil_r.
  - rewrite IH. unfold objectEntries at 2, matchesObject. simpl.
    destruct (bool_decide (volume param = bucket)); simpl.
    + destruct (String.prefix prefix (path param)); simpl.
      * rewrite listLocksInfo_inner. simpl. by rewrite <- app_assoc.
      * done.
    + done.
Qed.

Lemma getSystemLockState_inner v ops :
  foldl (fun volLockInfo '(opsID, lockInfo) =>
           appendDetail volLockInfo
             {| OperationID := opsID;
                LockSource := lockSource lockInfo;
                LockType := lType lockInfo;
                Status := status lockInfo;
                Since := since lockInfo;
                Duration := time.Sub timeNow (since lockInfo) |}) v ops
  = foldl appendDetail v (detailOf timeNow <$> ops).
Proof.
  revert v. induction ops as [|[opsID li] ops IH]; intros v; simpl; [done|].
  apply IH.
Qed.

Lemma getSystemLockState_closed :
  getSystemLockState ro ri globalNSMutex timeNow
  = ({| TotalLocks := total (counters globalNSMutex);
        sys_TotalBlockedLocks := blocked (counters globalNSMutex);
        TotalAcquiredLocks := granted (counters globalNSMutex);
        LocksInfoPerObject :=
          objectState ri timeNow <$> range ro (debugLockMap globalNSMutex) |},
     None).
Proof.
  unfold getSystemLockState. f_equal.
  generalize (range ro (debugLockMap globalNSMutex)). intros l.
  set (st0 := {| TotalLocks := total (counters globalNSMutex);
                 sys_TotalBlockedLocks := blocked (counters globalNSMutex);
                 TotalAcquiredLocks := granted (counters globalNSMutex);
                 LocksInfoPerObject := [] |}).
  change (objectState ri timeNow <$> l)
    with (LocksInfoPerObject st0 ++ (objectState ri timeNow <$> l)).
  change (total (counters globalNSMutex)) with (TotalLocks st0).
  change (blocked (counters globalNSMutex)) with (sys_TotalBlockedLocks st0).
  change (granted (counters globalNSMutex)) with (TotalAcquiredLocks st0).
  generalize st0. clear st0.
  induction l as [|[param dl] l IH]; intros st; simpl.
  - rewrite app_nil_r. by destruct st.
  - rewrite IH. simpl. rewrite <- app_assoc. simpl.
    do 2 f_equal. f_equal. apply getSystemLockState_inner.
Qed.

Lemma cumulative_last v0 ds v :
  v ∈ cumulative v0 ds →
  ∃ d, d ∈ ds ∧ last (LockDetailsOnObject v) = Some d
       ∧ Bucket v = Bucket v0 ∧ Object v = Object v0.
Proof.
  revert v0. induction ds as [|d ds IH]; intros v0; simpl.
  - by intros ?%elem_of_nil.
  - intros [-> | Hv]%elem_of_cons.
    + exists d. split; [left|]. simpl. by rewrite last_snoc.
    + destruct (IH _ Hv) as (d' & Hd' & Hlast & HB & HO).
      exists d'. split; [by right|]. done.
Qed.

Lemma cumulative_emits v0 ds d :
  d ∈ ds →
  ∃ v, v ∈ cumulative v0 ds ∧ last (LockDetailsOnObject v) = Some d
       ∧ Bucket v = Bucket v0 ∧ Object v = Object v0.
Proof.
  revert v0. induction ds as [|d' ds IH]; intros v0; simpl.
  - by intros ?%elem_of_nil.
  - intros [-> | Hd]%elem_of_cons.
    + exists (appendDetail v0 d'). split; [left|]. simpl. by rewrite last_snoc.
    + destruct (IH (appendDetail v0 d') Hd) as (v & Hv & Hlast & HB & HO).
      exists v. split; [by right|]. done.
Qed.

(** The details an entry of a run shows are among those of the run. *)
Lemma cumulative_details v0 ds v d :
  v ∈ cumulative v0 ds → d ∈ LockDetailsOnObject v →
  d ∈ LockDetailsOnObject v0 ∨ d ∈ ds.
Proof.
  rewrite cumulative_elem. intros (k & Hk & ->).
  rewrite foldl_appendDetail. simpl. rewrite elem_of_app.
  intros [?|Hd]; [by left|]. right.
  by apply (subseteq_take (S k) ds).
Qed.

Lemma matchesObject_spec bucket prefix param :
  matchesObject bucket prefix param = true ↔
  volume param = bucket ∧ String.prefix prefix (path param) = true.
Proof.
  unfold matchesObject. rewrite andb_true_iff.
  by rewrite bool_decide_eq_true.
Qed.

Lemma oldEnough_spec relTime rec :
  oldEnough timeNow relTime rec ↔ relTime <= time.Sub timeNow (since rec.2).
Proof.
  unfold oldEnough.
  destruct (Z.ltb_spec (time.Sub timeNow (since rec.2)) relTime); simpl;
    split; try done; lia.
Qed.

Lemma elem_of_listLocksInfo bucket prefix relTime v :
  v ∈ listLocksInfo ro ri globalNSMutex timeNow bucket prefix relTime ↔
  ∃ param dl, debugLockMap globalNSMutex !! param = Some dl
              ∧ v ∈ objectEntries ri timeNow bucket prefix relTime (param, dl).
Proof.
  rewrite listLocksInfo_closed, list_elem_of_join. split.
  - intros (es & Hv & Hes). apply list_elem_of_fmap in Hes as ([param dl] & -> & Hin).
    exists param, dl. split; [by apply (range_lookup ro)|done].
  - intros (param & dl & Hlk & Hv).
    exists (objectEntries ri timeNow bucket prefix relTime (param, dl)).
    split; [done|]. apply list_elem_of_fmap. exists (param, dl).
    split; [done|]. by apply (range_lookup ro).
Qed.

End InspectorFacts.

(** ** Properties of the inspector *)

Lemma emittedFor_listLocksInfo ro ri g timeNow bucket prefix relTime
    param dl opsID li :
  debugLockMap g !! param = Some dl →
  lockInfo dl !! opsID = Some li →
  emittedFor (listLocksInfo ro ri g timeNow bucket prefix relTime) param
             (detailOf timeNow (opsID, li))
  ↔ volume param = bucket ∧ String.prefix prefix (path param) = true
    ∧ relTime <= time.Sub timeNow (since li).
Proof.
  intros Hdl Hli. unfold emittedFor. split.
  - intros (v & Hv & HB & HO & Hlast).
    apply elem_of_listLocksInfo in Hv as (param' & dl' & _ & Hv).
    unfold objectEntries in Hv. simpl in Hv.
    destruct (matchesObject bucket prefix param') eqn:Hm;
      [|by apply elem_of_nil in Hv].
    apply matchesObject_spec in Hm as [Hvol Hpre].
    apply cumulative_last in Hv as (d & Hd & Hlast' & HB' & HO').
    simpl in HB', HO'.
    rewrite Hlast in Hlast'. injection Hlast' as <-.
    apply list_elem_of_fmap in Hd as (rec & Hrec & Hin).
    apply list_elem_of_filter in Hin as [Hold _].
    apply oldEnough_spec in Hold.
    assert (since rec.2 = since li) as Hs
      by (by apply (f_equal Since) in Hrec).
    rewrite Hs in Hold.
    split; [congruence|]. split; [|done].
    replace (path param) with (path param') by congruence. done.
  - intros (Hvol & Hpre & Hold).
    assert (detailOf timeNow (opsID, li)
              ∈ detailOf timeNow <$>
                  filter (fun r => oldEnough timeNow relTime r)
                         (range (ri param) (lockInfo dl))) as Hd.
    { apply list_elem_of_fmap_2, list_elem_of_filter. split.
      - by apply oldEnough_spec.
      - by apply (range_lookup (ri param)). }
    destruct (cumulative_emits (objectInfo param dl) _ _ Hd)
      as (v & Hv & Hlast & HB & HO).
    exists v. repeat split; try done.
    apply elem_of_listLocksInfo. exists param, dl. split; [done|].
    unfold objectEntries. simpl.
    assert (matchesObject bucket prefix param = true) as ->
      by (by apply matchesObject_spec).
    done.
Qed.

(** C4, as amended.  An operation record of the entry (volume, path) of
    the lock table contributes to the output of [listLocksInfo] exactly
    when the volume is the requested bucket, the path starts with the
    requested prefix, and the elapsed time [timeNow.Sub(since)] is at least
    [relTime]; in particular, with the empty prefix and [relTime = 0] the
    records of the bucket that contribute are those whose [since] is not
    after the sample [timeNow]. *)
Theorem listLocksInfo_filter ro ri g timeNow bucket prefix relTime
    param dl opsID li :
  debugLockMap g !! param = Some dl →
  lockInfo dl !! opsID = Some li →
  (emittedFor (listLocksInfo ro ri g timeNow bucket prefix relTime) param
              (detailOf timeNow (opsID, li))
   ↔ volume param = bucket ∧ String.prefix prefix (path param) = true
     ∧ relTime <= time.Sub timeNow (since li))
  ∧ (emittedFor (listLocksInfo ro ri g timeNow bucket "" 0) param
                (detailOf timeNow (opsID, li))
     ↔ volume param = bucket ∧ since li <= timeNow).
Proof.
  intros Hdl Hli. split.
  - by apply (emittedFor_listLocksInfo _ _ _ _ _ _ _ _ dl).
  - rewrite (emittedFor_listLocksInfo ro ri g timeNow bucket "" 0 _ _ _ _ Hdl Hli).
    rewrite Sub_nonneg. simpl. split.
    + by intros (? & _ & ?).
    + intros [? ?]. repeat split; try done. by destruct (path param).
Qed.

Lemma listLocksInfo_filter_witness :
  (emittedFor
     (listLocksInfo ascending (fun _ => ascending) tableTwoOps 1000 "b" "o" 850)
     (NsParam "b" "o") (detailOf 1000 ("op1"%string, op1))
   ↔ "b"%string = "b"%string ∧ String.prefix "o" "o" = true
     ∧ 850 <= time.Sub 1000 100)
  ∧ (emittedFor
       (listLocksInfo ascending (fun _ => ascending) tableTwoOps 1000 "b" "" 0)
       (NsParam "b" "o") (detailOf 1000 ("op1"%string, op1))
     ↔ "b"%string = "b"%string ∧ 100 <= 1000).
Proof.
  apply (listLocksInfo_filter ascending (fun _ => ascending) tableTwoOps 1000
           "b" "o" 850 (NsParam "b" "o") twoOps "op1" op1);
    vm_compute; reflexivity.
Defined.

(** The prefix test is [strings.HasPrefix]: the object of path ["o"] is
    listed under the prefixes [""] and ["o"], not under ["pre"] or ["ob"]. *)
Example listLocksInfo_prefix :
  length (listLocksInfo ascending (fun _ => ascending) tableTwoOps 1000 "b" "o" 0)
  = 2%nat
  ∧ listLocksInfo ascending (fun _ => ascending) tableTwoOps 1000 "b" "pre" 0 = []
  ∧ listLocksInfo ascending (fun _ => ascending) tableTwoOps 1000 "b" "ob" 0 = []
  ∧ listLocksInfo ascending (fun _ => ascending) tableTwoOps 1000 "c" "" 0 = [].
Proof. vm_compute. done. Qed.

(** C4, as stated, fails: the table tracks a record of bucket ["b"] whose
    [since] is after the sample, and [listLocksInfo "b" "" 0] returns
    nothing. *)
Lemma listLocksInfo_drops_record_ahead :
  debugLockMap tableAhead !! NsParam "b" "o" = Some oneOpAhead
  ∧ lockInfo oneOpAhead !! "op1"%string = Some opAhead
  ∧ listLocksInfo ascending (fun _ => ascending) tableAhead 5 "b" "" 0 = [].
Proof. vm_compute. done. Qed.

(** Every detail record either call puts out has its duration taken from
    the one sample [timeNow]. *)
Lemma getSystemLockState_details ro ri g timeNow d :
  d ∈ detailsOf (LocksInfoPerObject (getSystemLockState ro ri g timeNow).1) →
  ∃ rec, d = detailOf timeNow rec.
Proof.
  rewrite getSystemLockState_closed. simpl. unfold detailsOf.
  rewrite list_elem_of_join. intros (ds & Hd & Hds).
  apply list_elem_of_fmap in Hds as (v & -> & Hv).
  apply list_elem_of_fmap in Hv as ([param dl] & -> & _).
  unfold objectState in Hd. rewrite foldl_appendDetail in Hd. simpl in Hd.
  apply list_elem_of_fmap in Hd as (rec & -> & _). by exists rec.
Qed.

Lemma listLocksInfo_details ro ri g timeNow bucket prefix relTime d :
  d ∈ detailsOf (listLocksInfo ro ri g timeNow bucket prefix relTime) →
  ∃ rec, d = detailOf timeNow rec.
Proof.
  unfold detailsOf. rewrite list_elem_of_join. intros (ds & Hd & Hds).
  apply list_elem_of_fmap in Hds as (v & -> & Hv).
  apply elem_of_listLocksInfo in Hv as (param & dl & _ & Hv).
  unfold objectEntries in Hv.
  destruct (matchesObject bucket prefix (param, dl).1);
    [|by apply elem_of_nil in Hv].
  destruct (cumulative_details _ _ _ _ Hv Hd) as [Hnil|Hin].
  - by apply elem_of_nil in Hnil.
  - apply list_elem_of_fmap in Hin as (rec & -> & _). by exists rec.
Qed.

Lemma detailOf_sum timeNow rec :
  time.representable timeNow (Since (detailOf timeNow rec)) →
  time.Add (Since (detailOf timeNow rec)) (Duration (detailOf timeNow rec))
  = timeNow.
Proof.
  simpl. intros Hr. rewrite (Sub_representable _ _ Hr). unfold time.Add. lia.
Qed.

(** C7, as amended.  Within one call of [getSystemLockState], and likewise
    within one call of [listLocksInfo], the durations are computed from one
    shared sample: for any two records of the output whose distance to the
    sample fits in a [Duration], [Since + Duration] is the same instant,
    the sample itself. *)
Theorem durations_share_sample ro ri g timeNow bucket prefix relTime
    (out : list VolumeLockInfo) (d1 d2 : OpsLockState) :
  out = LocksInfoPerObject (getSystemLockState ro ri g timeNow).1
  ∨ out = listLocksInfo ro ri g timeNow bucket prefix relTime →
  d1 ∈ detailsOf out → d2 ∈ detailsOf out →
  time.representable timeNow (Since d1) →
  time.representable timeNow (Since d2) →
  time.Add (Since d1) (Duration d1) = time.Add (Since d2) (Duration d2)
  ∧ time.Add (Since d1) (Duration d1) = timeNow.
Proof.
  intros Hout H1 H2 Hr1 Hr2.
  assert (∀ d, d ∈ detailsOf out → ∃ rec, d = detailOf timeNow rec) as Hall.
  { destruct Hout as [-> | ->]; intros d.
    - apply getSystemLockState_details.
    - apply listLocksInfo_details. }
  destruct (Hall _ H1) as (r1 & ->), (Hall _ H2) as (r2 & ->).
  by rewrite !detailOf_sum.
Qed.

Lemma durations_share_sample_witness :
  time.Add (Since (detailOf 1000 ("op1"%string, op1)))
           (Duration (detailOf 1000 ("op1"%string, op1)))
  = time.Add (Since (detailOf 1000 ("op2"%string, op2)))
             (Duration (detailOf 1000 ("op2"%string, op2)))
  ∧ time.Add (Since (detailOf 1000 ("op1"%string, op1)))
             (Duration (detailOf 1000 ("op1"%string, op1))) = 1000.
Proof.
  apply (durations_share_sample ascending (fun _ => ascending) tableTwoOps
           1000 "b" "" 0
           (listLocksInfo ascending (fun _ => ascending) tableTwoOps 1000 "b" "" 0)).
  - right. reflexivity.
  - vm_compute. apply list_elem_of_here.
  - vm_compute. apply list_elem_of_further, list_elem_of_further,
      list_elem_of_here.
  - vm_compute. split; discriminate.
  - vm_compute. split; discriminate.
Defined.

(** C7, as stated, fails: with an operation stamped at the zero [Time]
    the difference to the sample exceeds the largest [Duration], [Sub]
    saturates, and the two records of one call no longer add up to the
    same instant; in [getSystemLockState] and in [listLocksInfo] alike. *)
Lemma durations_saturate :
  let dZero := detailOf sampleNow ("op1"%string, opZero) in
  let dRecent := detailOf sampleNow ("op2"%string, opRecent) in
  detailsOf (LocksInfoPerObject
               (getSystemLockState ascending (fun _ => ascending)
                                   tableZero sampleNow).1)
  = [dZero; dRecent]
  ∧ detailsOf (listLocksInfo ascending (fun _ => ascending)
                             tableZero sampleNow "b" "" 0)
    = [dZero; dZero; dRecent]
  ∧ time.Add (Since dZero) (Duration dZero) = time.maxDuration
  ∧ time.Add (Since dRecent) (Duration dRecent) = sampleNow
  ∧ time.Add (Since dZero) (Duration dZero)
    ≠ time.Add (Since dRecent) (Duration dRecent).
Proof. vm_compute. repeat split; discriminate. Qed.

(** C8.  [getSystemLockState] copies the three running counters of the
    lock table as they are and returns no error; two calls on the same
    state of the table, whatever their samples and iteration orders,
    return the same counters. *)
Theorem getSystemLockState_counters ro ri ro' ri' g timeNow timeNow' :
  let st := getSystemLockState ro ri g timeNow in
  let st' := getSystemLockState ro' ri' g timeNow' in
  (TotalLocks st.1 = total (counters g)
   ∧ TotalAcquiredLocks st.1 = granted (counters g)
   ∧ sys_TotalBlockedLocks st.1 = blocked (counters g)
   ∧ st.2 = None)
  ∧ (TotalLocks st'.1 = TotalLocks st.1
     ∧ TotalAcquiredLocks st'.1 = TotalAcquiredLocks st.1
     ∧ sys_TotalBlockedLocks st'.1 = sys_TotalBlockedLocks st.1).
Proof.
  intros st st'. subst st st'. by rewrite !getSystemLockState_closed.
Qed.

(** *** Entries per object *)

Lemma cumulative_names v0 ds v :
  v ∈ cumulative v0 ds →
  Bucket v = Bucket v0 ∧ Object v = Object v0
  ∧ LocksOnObject v = LocksOnObject v0
  ∧ LocksAcquiredOnObject v = LocksAcquiredOnObject v0
  ∧ TotalBlockedLocks v = TotalBlockedLocks v0.
Proof.
  rewrite cumulative_elem. intros (k & _ & ->).
  by rewrite foldl_appendDetail.
Qed.

(** The entry at position [j] of an object's run carries [j + 1] detail
    records: those of the operations met so far, not the one alone. *)
Lemma cumulative_lookup v0 ds j v :
  cumulative v0 ds !! j = Some v →
  LockDetailsOnObject v = LockDetailsOnObject v0 ++ take (S j) ds.
Proof.
  revert v0 j. induction ds as [|d ds IH]; intros v0 j; simpl; [done|].
  destruct j as [|j]; simpl.
  - intros [= <-]. simpl. by rewrite take_0.
  - intros Hv. rewrite (IH _ _ Hv). simpl. by rewrite <- app_assoc.
Qed.

Lemma objectEntries_details_grow ri timeNow bucket prefix relTime entry j v :
  objectEntries ri timeNow bucket prefix relTime entry !! j = Some v →
  length (LockDetailsOnObject v) = S j.
Proof.
  unfold objectEntries.
  destruct (matchesObject bucket prefix entry.1); [|done].
  intros Hv. pose proof (lookup_lt_Some _ _ _ Hv) as Hj.
  rewrite cumulative_length in Hj.
  rewrite (cumulative_lookup _ _ _ _ Hv). simpl.
  rewrite length_take. lia.
Qed.

Lemma filter_all {A} (P : A → Prop) `{∀ x, Decision (P x)} (l : list A) :
  (∀ x, x ∈ l → P x) → filter P l = l.
Proof.
  induction l as [|x l IH]; intros Hall; [done|].
  rewrite filter_cons_True by (apply Hall; left).
  f_equal. apply IH. intros y Hy. apply Hall. by right.
Qed.

Lemma filter_none {A} (P : A → Prop) `{∀ x, Decision (P x)} (l : list A) :
  (∀ x, x ∈ l → ¬ P x) → filter P l = [].
Proof.
  induction l as [|x l IH]; intros Hall; [done|].
  rewrite filter_cons_False by (apply Hall; left).
  apply IH. intros y Hy. apply Hall. by right.
Qed.

Lemma mjoin_cons {A} (l : list A) (ls : list (list A)) :
  mjoin (l :: ls) = l ++ mjoin ls.
Proof. done. Qed.

Lemma entriesOf_app param out1 out2 :
  entriesOf param (out1 ++ out2) = entriesOf param out1 ++ entriesOf param out2.
Proof. apply filter_app. Qed.

Lemma entriesOf_other ri timeNow bucket prefix relTime param
    (l : list (nsParam * debugLockInfoPerVolumePath)) :
  (∀ e, e ∈ l → e.1 ≠ param) →
  entriesOf param (mjoin (objectEntries ri timeNow bucket prefix relTime <$> l))
  = [].
Proof.
  induction l as [|e l IH]; intros Hne; [done|].
  rewrite fmap_cons, mjoin_cons.
  rewrite entriesOf_app, IH by (intros e' He'; apply Hne; by right).
  rewrite app_nil_r. apply filter_none. intros v Hv [HB HO].
  unfold objectEntries in Hv.
  destruct (matchesObject bucket prefix e.1); [|by apply elem_of_nil in Hv].
  apply cumulative_names in Hv as (HB' & HO' & _). simpl in HB', HO'.
  apply (Hne e); [left|]. destruct e as [[vol pth] dl], param as [vol' pth'].
  simpl in *. congruence.
Qed.

Lemma entriesOf_Permutation ri timeNow bucket prefix relTime param
    (l l' : list (nsParam * debugLockInfoPerVolumePath)) :
  l ≡ₚ l' →
  length (entriesOf param
            (mjoin (objectEntries ri timeNow bucket prefix relTime <$> l)))
  = length (entriesOf param
              (mjoin (objectEntries ri timeNow bucket prefix relTime <$> l'))).
Proof.
  induction 1 as [|e l l' _ IH|e e' l|l l' l'' _ IH1 _ IH2];
    rewrite ?fmap_cons, ?mjoin_cons.
  - done.
  - by rewrite !entriesOf_app, !length_app, IH.
  - rewrite !entriesOf_app, !length_app. lia.
  - congruence.
Qed.

(** An object contributes one entry per operation record that passes the
    filter on age, when the object itself passes the filter on bucket and
    prefix, and none otherwise. *)
Lemma listLocksInfo_entries_per_record ro ri g timeNow bucket prefix relTime
    param dl :
  debugLockMap g !! param = Some dl →
  length (entriesOf param (listLocksInfo ro ri g timeNow bucket prefix relTime))
  = if matchesObject bucket prefix param
    then length (filter (fun r => oldEnough timeNow relTime r)
                        (map_to_list (lockInfo dl)))
    else 0%nat.
Proof.
  intros Hdl. rewrite listLocksInfo_closed.
  rewrite (entriesOf_Permutation _ _ _ _ _ _ _
             ((param, dl) :: map_to_list (delete param (debugLockMap g)))).
  2: { rewrite (range_visits_once ro). symmetry. by apply map_to_list_delete. }
  rewrite fmap_cons, mjoin_cons, entriesOf_app, entriesOf_other, app_nil_r.
  2: { intros [param' dl'] Hin%elem_of_map_to_list Heq. simpl in Heq. subst.
       by rewrite lookup_delete_eq in Hin. }
  unfold objectEntries. simpl.
  destruct (matchesObject bucket prefix param); [|done].
  unfold entriesOf. rewrite filter_all.
  - rewrite cumulative_length, length_fmap.
    by rewrite (range_visits_once (ri param)).
  - intros v Hv. by apply cumulative_names in Hv as (? & ? & _).
Qed.

(** C2, on the code.  With two operations on one object,
    [listLocksInfo] does return two entries, each with the object's
    counters, but the second carries both operations' detail records, in
    whichever order [range] met them: the detail slice of the struct is
    appended to and never reset between two entries. *)
Theorem listLocksInfo_details_accumulate :
  let d1 := detailOf 1000 ("op1"%string, op1) in
  let d2 := detailOf 1000 ("op2"%string, op2) in
  let v := objectInfo (NsParam "b" "o") twoOps in
  listLocksInfo ascending (fun _ => ascending) tableTwoOps 1000 "b" "" 0
  = [appendDetail v d1; appendDetail (appendDetail v d1) d2]
  ∧ listLocksInfo ascending (fun _ => descending) tableTwoOps 1000 "b" "" 0
    = [appendDetail v d2; appendDetail (appendDetail v d2) d1]
  ∧ LockDetailsOnObject (appendDetail (appendDetail v d1) d2) = [d1; d2]
  ∧ LockDetailsOnObject (appendDetail (appendDetail v d2) d1) = [d2; d1].
Proof. vm_compute. done. Qed.

(** ** Properties of the peer registry *)

Lemma elem_of_firstOccurrences h l : h ∈ firstOccurrences l ↔ h ∈ l.
Proof.
  unfold firstOccurrences.
  by rewrite elem_of_reverse, elem_of_remove_dups, elem_of_reverse.
Qed.

Lemma NoDup_firstOccurrences l : NoDup (firstOccurrences l).
Proof.
  unfold firstOccurrences. rewrite reverse_Permutation.
  apply NoDup_remove_dups.
Qed.

Lemma firstOccurrences_snoc l h :
  firstOccurrences (l ++ [h])
  = if decide (h ∈ l) then firstOccurrences l else firstOccurrences l ++ [h].
Proof.
  unfold firstOccurrences. rewrite reverse_snoc. simpl.
  destruct (decide_rel elem_of h (reverse l)) as [Hin|Hin];
    rewrite elem_of_reverse in Hin.
  - by rewrite decide_True.
  - by rewrite decide_False, reverse_cons.
Qed.

Lemma registryAddrs_snoc g eps ep :
  registryAddrs g (eps ++ [ep])
  = if bool_decide (Host ep = ""%string) then registryAddrs g eps
    else if decide (Host ep ∈ registryAddrs g eps) then registryAddrs g eps
    else registryAddrs g eps ++ [Host ep].
Proof.
  unfold registryAddrs. rewrite fmap_app, filter_app. simpl.
  rewrite filter_cons, filter_nil.
  destruct (decide (Host ep ≠ ""%string)) as [Hne|He].
  - rewrite bool_decide_eq_false_2 by done.
    rewrite app_comm_cons, firstOccurrences_snoc.
    destruct (decide (Host ep ∈ g :: filter _ (Host <$> eps))) as [Hin|Hin].
    + rewrite decide_True; [done|]. by apply elem_of_firstOccurrences.
    + rewrite decide_False; [done|]. by rewrite elem_of_firstOccurrences.
  - rewrite bool_decide_eq_true_2 by (by destruct (decide (Host ep = ""%string))).
    by rewrite app_nil_r.
Qed.

Section RegistryFacts.

Variable globalMinioAddr : string.
Variable serverCred : credential.
Variable isSSL : bool.
Variable adminServiceEndpoint : string.
Variable newAuthRPCClient : authConfig → AuthRPCClient.

Let step :=
  makeAdminPeers_step serverCred isSSL adminServiceEndpoint newAuthRPCClient.
Let remote :=
  remotePeer serverCred isSSL adminServiceEndpoint newAuthRPCClient.

Lemma registryInv_init :
  registryInv globalMinioAddr serverCred isSSL adminServiceEndpoint
    newAuthRPCClient [] ([localPeer globalMinioAddr],
                  <[globalMinioAddr := true]> (∅ : gmap string bool)).
Proof.
  repeat split; simpl.
  - intros Hh. destruct (decide (h = globalMinioAddr)) as [->|Hne].
    + left.
    + by rewrite lookup_insert_ne in Hh.
  - intros ->%list_elem_of_singleton. by rewrite lookup_insert_eq.
  - done.
  - done.
Qed.

Lemma registryInv_step eps st ep :
  registryInv globalMinioAddr serverCred isSSL adminServiceEndpoint
    newAuthRPCClient eps st →
  registryInv globalMinioAddr serverCred isSSL adminServiceEndpoint
    newAuthRPCClient
              (eps ++ [ep]) (step st ep).
Proof.
  destruct st as [peers seen]. intros (Haddr & Hseen & Hloc & Hrem).
  simpl in *. unfold registryInv, step, makeAdminPeers_step.
  rewrite registryAddrs_snoc.
  destruct (bool_decide (Host ep = ""%string)) eqn:Hempty; [done|].
  apply bool_decide_eq_false in Hempty.
  destruct (default false (seen !! Host ep)) eqn:Hsn; simpl.
  - rewrite decide_True; [done|]. rewrite <- Haddr. by apply Hseen.
  - rewrite decide_False.
    2: { rewrite <- Haddr. intros Hin%Hseen. congruence. }
    repeat split.
    + by rewrite fmap_app, Haddr.
    + rewrite fmap_app, elem_of_app. simpl.
      destruct (decide (h = Host ep)) as [->|Hne].
      * intros _. right. left.
      * rewrite lookup_insert_ne by done. intros ?%Hseen. by left.
    + rewrite fmap_app, elem_of_app. simpl.
      intros [Hin | ->%list_elem_of_singleton].
      * destruct (decide (h = Host ep)) as [->|Hne].
        -- by rewrite lookup_insert_eq.
        -- rewrite lookup_insert_ne by done. by apply Hseen.
      * by rewrite lookup_insert_eq.
    + apply lookup_app_l_Some. done.
    + apply lookup_app_Some in H as [Hp | [_ Hp]].
      * by apply (Hrem i).
      * apply list_lookup_singleton_Some in Hp as [_ <-]. done.
    + apply lookup_app_Some in H as [Hp | [_ Hp]].
      * by apply (Hrem i).
      * apply list_lookup_singleton_Some in Hp as [_ <-]. done.
Qed.

Lemma makeAdminPeers_inv eps :
  registryInv globalMinioAddr serverCred isSSL adminServiceEndpoint
    newAuthRPCClient eps
    (foldl step ([localPeer globalMinioAddr],
                 <[globalMinioAddr := true]> (∅ : gmap string bool)) eps).
Proof.
  induction eps as [|ep eps IH] using rev_ind.
  - apply registryInv_init.
  - rewrite foldl_app. simpl. by apply registryInv_step.
Qed.

(** C3.  The registry [makeAdminPeers] returns has the local peer, bound
    to the local runner, at position 0; its addresses are the local
    address followed by the non-empty hosts of the endpoints, duplicates
    collapsed to the first occurrence, so that no address occurs twice and
    every non-empty host of the list occurs exactly once; and the peers
    after position 0 are remote peers, none with the local address or an
    empty one. *)
Theorem makeAdminPeers_registry (eps : list URL) :
  let peers :=
    makeAdminPeers globalMinioAddr serverCred isSSL adminServiceEndpoint
                   newAuthRPCClient eps in
  peers !! 0%nat = Some (localPeer globalMinioAddr)
  ∧ addr <$> peers = registryAddrs globalMinioAddr eps
  ∧ NoDup (addr <$> peers)
  ∧ (∀ h, h ≠ ""%string → h ∈ Host <$> eps →
          length (filter (fun p => addr p = h) peers) = 1%nat)
  ∧ (∀ i p, peers !! S i = Some p →
            p = remote (addr p) ∧ addr p ≠ globalMinioAddr
            ∧ addr p ≠ ""%string ∧ addr p ∈ Host <$> eps).
Proof.
  intros peers.
  destruct (makeAdminPeers_inv eps) as (Haddr & _ & Hloc & Hrem).
  change (foldl step _ eps).1 with peers in Haddr, Hloc, Hrem.
  assert (NoDup (addr <$> peers)) as Hnd
    by (rewrite Haddr; apply NoDup_firstOccurrences).
  assert (∀ h, h ∈ addr <$> peers →
               length (filter (fun p => addr p = h) peers) = 1%nat) as Hone.
  { clear -Hnd. induction peers as [|p ps IH]; simpl in *.
    - by intros h ?%elem_of_nil.
    - apply NoDup_cons in Hnd as [Hp Hps]. intros h Hh.
      rewrite filter_cons. destruct (decide (addr p = h)) as [<-|Hne].
      + simpl. f_equal. rewrite filter_none; [done|].
        intros q Hq Heq. apply Hp. rewrite <- Heq.
        by apply list_elem_of_fmap_2.
      + apply IH; [done|]. apply elem_of_cons in Hh as [?|?]; [congruence|done]. }
  repeat split.
  - done.
  - done.
  - done.
  - intros h Hne Hin. apply Hone. rewrite Haddr.
    apply elem_of_firstOccurrences. right.
    by apply list_elem_of_filter.
  - by apply (Hrem i).
  - intros Heq.
    destruct peers as [|p0 ps] eqn:Hpeers; [done|].
    simpl in Hloc, H. injection Hloc as ->.
    simpl in Hnd. apply NoDup_cons in Hnd as [Hp0 _]. apply Hp0.
    rewrite <- Heq. apply list_elem_of_fmap_2.
    by apply list_elem_of_lookup_2 in H.
  - by apply (Hrem i).
  - assert (addr p ∈ addr <$> peers) as Hin.
    { apply list_elem_of_fmap_2. by apply list_elem_of_lookup_2 in H. }
    rewrite Haddr in Hin. unfold registryAddrs in Hin.
    rewrite elem_of_firstOccurrences in Hin.
    apply elem_of_cons in Hin as [Heq | Hin].
    + exfalso.
      destruct peers as [|p0 ps] eqn:Hpeers; [done|].
      simpl in Hloc, H. injection Hloc as ->.
      simpl in Hnd. apply NoDup_cons in Hnd as [Hp0 _]. apply Hp0.
      simpl. rewrite <- Heq. apply list_elem_of_fmap_2.
      by apply list_elem_of_lookup_2 in H.
    + by apply list_elem_of_filter in Hin as [_ ?].
Qed.

End RegistryFacts.

Lemma makeAdminPeers_registry_witness :
  addr <$> makeAdminPeers "n1:9000" (Credential "key" "secret") true
                          "minio/admin" exampleClient exampleEndpoints
  = ["n1:9000"; "n2:9000"; "n3:9000"]%string
  ∧ length (filter (fun p => addr p = "n2:9000"%string)
              (makeAdminPeers "n1:9000" (Credential "key" "secret") true
                              "minio/admin" exampleClient exampleEndpoints)) = 1%nat.
Proof.
  destruct (makeAdminPeers_registry "n1:9000" (Credential "key" "secret") true
              "minio/admin" exampleClient exampleEndpoints) as (_ & Haddr & _ & Hone & _).
  split.
  - rewrite Haddr. vm_compute. reflexivity.
  - apply Hone.
    + discriminate.
    + vm_compute. apply list_elem_of_here.
Defined.

(** ** The error reduction *)

Lemma occurrences_snoc e errs x :
  occurrences e (errs ++ [x])
  = (occurrences e errs + if decide (x = Some e) then 1 else 0)%nat.
Proof.
  unfold occurrences. rewrite filter_app, length_app. f_equal.
  rewrite filter_cons, filter_nil. by destruct (decide (x = Some e)).
Qed.

(** Two different errors share the peers between them. *)
Lemma occurrences_disjoint e e' errs :
  e ≠ e' → (occurrences e errs + occurrences e' errs ≤ length errs)%nat.
Proof.
  intros Hne. unfold occurrences.
  induction errs as [|x errs IH]; simpl; [done|].
  rewrite !filter_cons.
  destruct (decide (x = Some e)) as [Hx|Hx], (decide (x = Some e')) as [Hx'|Hx'];
    simpl; try lia.
  congruence.
Qed.

Lemma occurrences_pos e errs :
  (0 < occurrences e errs)%nat ↔ Some e ∈ errs.
Proof.
  unfold occurrences. split.
  - intros Hpos.
    destruct (filter (fun x => x = Some e) errs) as [|x l] eqn:Hf;
      [simpl in Hpos; lia|].
    assert (x ∈ filter (fun x => x = Some e) errs) as Hx
      by (rewrite Hf; left).
    by apply list_elem_of_filter in Hx as [-> ?].
  - intros Hin.
    assert (Some e ∈ filter (fun x => x = Some e) errs) as Hx
      by (by apply list_elem_of_filter).
    destruct (filter (fun x => x = Some e) errs); [by apply elem_of_nil in Hx|].
    simpl. lia.
Qed.

(** The counting pass: an error is a key of the map exactly when it
    occurs, with its number of occurrences. *)
Lemma errorCounts_lookup errs e :
  foldl (countErr []) ∅ errs !! e
  = if decide (occurrences e errs = 0%nat) then None
    else Some (occurrences e errs).
Proof.
  induction errs as [|x errs IH] using rev_ind; [apply lookup_empty|].
  rewrite foldl_app, occurrences_snoc. simpl. unfold countErr at 1.
  destruct x as [e'|].
  - rewrite bool_decide_eq_false_2 by (by intros ?%elem_of_nil).
    destruct (decide (e' = e)) as [->|Hne].
    + rewrite lookup_insert_eq, IH.
      destruct (decide (Some e = Some e)) as [_|?]; [|done].
      destruct (decide (occurrences e errs = 0%nat)) as [->|?]; simpl.
      * done.
      * destruct (decide _) as [?|_]; [lia|]. f_equal. lia.
    + rewrite lookup_insert_ne, IH by done.
      destruct (decide (Some e' = Some e)) as [?|_]; [congruence|].
      by rewrite Nat.add_0_r.
  - rewrite IH. destruct (decide (None = Some e)) as [?|_]; [done|].
    by rewrite Nat.add_0_r.
Qed.

(** The maximum pass, from any starting point and over any list. *)
Lemma maxErr_fold acc (l : list (error * nat)) :
  let r := foldl maxErr acc l in
  (acc.1 ≤ r.1)%nat
  ∧ (∀ e c, (e, c) ∈ l → (c ≤ r.1)%nat)
  ∧ (r = acc ∨ ∃ e, (e, r.1) ∈ l ∧ r.2 = Some e ∧ (acc.1 < r.1)%nat).
Proof.
  revert acc. induction l as [|[e c] l IH]; intros acc; simpl.
  - repeat split; [done | by intros ?? ?%elem_of_nil | by left].
  - destruct (IH (maxErr acc (e, c))) as (Hle & Hmax & Hres).
    unfold maxErr in *. simpl in *.
    destruct (Nat.ltb_spec acc.1 c); simpl in *.
    + repeat split.
      * lia.
      * intros e' c' [[= -> ->]|Hin]%elem_of_cons; [lia | by apply (Hmax e')].
      * right. destruct Hres as [-> | (e' & Hin & He' & Hlt)]; simpl.
        -- exists e. repeat split; [left | done].
        -- exists e'. repeat split; [by right | done | lia].
    + repeat split.
      * done.
      * intros e' c' [[= -> ->]|Hin]%elem_of_cons; [lia | by apply (Hmax e')].
      * destruct Hres as [-> | (e' & Hin & He' & Hlt)]; [by left|].
        right. exists e'. repeat split; [by right | done | done].
Qed.

(** [reduceErrs], whatever the order of its pass: no error at all gives
    zero and nil; otherwise it gives an error that occurs, with its number
    of occurrences, and no error occurs more often. *)
Lemma reduceErrs_spec re errs :
  let r := reduceErrs re errs [] in
  (∀ e, (occurrences e errs ≤ r.1)%nat)
  ∧ ((r = (0%nat, None) ∧ ∀ e, Some e ∉ errs)
     ∨ ∃ e, r = (occurrences e errs, Some e) ∧ Some e ∈ errs).
Proof.
  unfold reduceErrs.
  destruct (maxErr_fold (0%nat, None)
              (range re (foldl (countErr []) ∅ errs))) as (_ & Hmax & Hres).
  simpl in *. split.
  - intros e. destruct (decide (occurrences e errs = 0%nat)) as [->|Hne]; [lia|].
    apply (Hmax e). apply range_lookup. rewrite errorCounts_lookup.
    by rewrite decide_False.
  - destruct Hres as [Heq | (e & Hin & He & Hlt)].
    + left. split; [done|]. intros e Hin%occurrences_pos.
      assert (occurrences e errs ≤ 0)%nat; [|lia].
      rewrite Heq in Hmax. apply (Hmax e). apply range_lookup.
      rewrite errorCounts_lookup. rewrite decide_False by lia. done.
    + right. exists e. apply range_lookup in Hin.
      rewrite errorCounts_lookup in Hin.
      destruct (decide (occurrences e errs = 0%nat)); [done|].
      injection Hin as Hin. split.
      * rewrite Hin. by destruct (foldl maxErr _ _); simpl in *; subst.
      * apply occurrences_pos. lia.
Qed.

(** ** The fan-out loops *)

Lemma imap_shift {A} (n : nat) (l : list A) :
  imap ((fun i => pair (n + i)%nat) ∘ S) l
  = imap (fun i => pair (S n + i)%nat) l.
Proof. apply imap_ext. intros i x _. simpl. f_equal. lia. Qed.

Lemma insert_next {A} (pre : list A) (x y : A) (rest : list A) (n : nat) :
  length pre = n → <[n := x]> (pre ++ y :: rest) = (pre ++ [x]) ++ rest.
Proof.
  intros <-. rewrite insert_app_r_alt by done.
  rewrite Nat.sub_diag. simpl. by rewrite <- app_assoc.
Qed.

Section FanOutFacts.

Variable ro : rangeOrder nsParam debugLockInfoPerVolumePath.
Variable ri : nsParam → rangeOrder string debugLockInfo.
Variable globalNSMutex : nsLockMap.
Variable timeNow : time.Time.
Variable re : rangeOrder error nat.
Variable rg : rangeOrder nsParam (list VolumeLockInfo).
Variables bucket prefix : string.
Variable relTime : time.Duration.

Let locksOf := peerLocks ro ri globalNSMutex timeNow bucket prefix relTime.
Let errOf := peerErr ro ri globalNSMutex timeNow bucket prefix relTime.

Lemma listPeerLocksInfo_fanout remotePeers n
    (preL : list (list VolumeLockInfo)) (preE : list (option error)) :
  length preL = S n → length preE = S n →
  foldl (listPeerLocksInfo_remote ro ri globalNSMutex timeNow
           bucket prefix relTime)
        (preL ++ replicate (length remotePeers) [],
         preE ++ replicate (length remotePeers) None)
        (imap (fun i => pair (n + i)%nat) remotePeers)
  = (preL ++ (locksOf <$> remotePeers), preE ++ (errOf <$> remotePeers)).
Proof.
  revert n preL preE.
  induction remotePeers as [|cp rest IH]; intros n preL preE HL HE; [done|].
  cbn [imap foldl length replicate]. rewrite imap_shift.
  unfold listPeerLocksInfo_remote at 2.
  replace (n + 0 + 1)%nat with (S n) by lia.
  rewrite !fmap_cons. unfold locksOf, errOf, peerLocks, peerErr.
  destruct (ListLocks ro ri globalNSMutex timeNow (cmdRunner cp)
              bucket prefix relTime) as [locks err]. cbn [fst snd].
  rewrite !insert_next by done.
  etrans; [apply (IH (S n)); rewrite length_app; simpl; lia|].
  unfold locksOf, errOf, peerLocks, peerErr. by rewrite <- !app_assoc.
Qed.

Lemma invokeServiceCmd_closed cp cmd ch :
  invokeServiceCmd cp cmd ch = (serviceOutcome cmd cp, ch ++ posted cmd cp).
Proof.
  unfold invokeServiceCmd, serviceOutcome, posted, Stop, Restart.
  destruct cmd, (cmdRunner cp); by rewrite ?app_nil_r.
Qed.

Lemma sendServiceCmd_fanout cmd remotePeers n
    (preE : list (option error)) (ch : list serviceSignal) :
  length preE = S n →
  foldl (sendServiceCmd_remote cmd)
        (preE ++ replicate (length remotePeers) None, ch)
        (imap (fun i => pair (n + i)%nat) remotePeers)
  = (preE ++ (serviceOutcome cmd <$> remotePeers),
     ch ++ mjoin (posted cmd <$> remotePeers)).
Proof.
  revert n preE ch.
  induction remotePeers as [|cp rest IH]; intros n preE ch HE.
  - simpl. by rewrite !app_nil_r.
  - cbn [imap foldl length replicate]. rewrite imap_shift.
    unfold sendServiceCmd_remote at 2. rewrite invokeServiceCmd_closed.
    replace (n + 0 + 1)%nat with (S n) by lia.
    rewrite insert_next by done.
    etrans; [apply (IH (S n)); rewrite length_app; simpl; lia|].
    rewrite !fmap_cons, mjoin_cons. by rewrite <- !app_assoc.
Qed.

(** [sendServiceCmd] in closed form: slot [i] of [errs] holds the answer
    of peer [i], and the channel receives the command once for each local
    runner, those after position 0 first. *)
Lemma sendServiceCmd_errs_closed cp0 remotePeers cmd ch :
  sendServiceCmd_errs (cp0 :: remotePeers) cmd ch
  = Some (serviceOutcome cmd <$> cp0 :: remotePeers,
          ch ++ mjoin (posted cmd <$> remotePeers) ++ posted cmd cp0).
Proof.
  unfold sendServiceCmd_errs. cbn [length replicate].
  change (imap pair remotePeers)
    with (imap (fun i => pair (0 + i)%nat) remotePeers).
  change (None :: replicate (length remotePeers) None)
    with ([None : option error] ++ replicate (length remotePeers) None).
  rewrite (sendServiceCmd_fanout cmd remotePeers 0 [None] ch) by done.
  rewrite invokeServiceCmd_closed. simpl. by rewrite <- app_assoc.
Qed.

(** ** The merge *)

Lemma mjoin_Permutation {A} (l l' : list (list A)) :
  l ≡ₚ l' → mjoin l ≡ₚ mjoin l'.
Proof.
  induction 1 as [|x l l' _ IH|x y l|l l' l'' _ IH1 _ IH2];
    rewrite ?mjoin_cons.
  - done.
  - by rewrite IH.
  - rewrite !app_assoc. by rewrite (Permutation_app_comm y x).
  - by rewrite IH1.
Qed.

Lemma flatLocks_as (m : gmap nsParam (list VolumeLockInfo)) l :
  map_to_list m ≡ₚ l → flatLocks m ≡ₚ mjoin l.*2.
Proof. intros Hl. unfold flatLocks. apply mjoin_Permutation. by rewrite Hl. Qed.

Lemma flatLocks_groupLock m x : flatLocks (groupLock m x) ≡ₚ flatLocks m ++ [x].
Proof.
  unfold groupLock.
  set (param := {| volume := Bucket x; path := Object x |}).
  destruct (m !! param) as [vs|] eqn:Hm; simpl.
  - rewrite <- insert_delete_eq.
    rewrite (flatLocks_as _ ((param, vs ++ [x]) :: map_to_list (delete param m)))
      by (apply map_to_list_insert, lookup_delete_eq).
    rewrite (flatLocks_as m ((param, vs) :: map_to_list (delete param m)))
      by (symmetry; by apply map_to_list_delete).
    rewrite !fmap_cons, !mjoin_cons. simpl.
    rewrite <- !app_assoc. apply Permutation_app_head, Permutation_app_comm.
  - rewrite (flatLocks_as _ ((param, [x]) :: map_to_list m))
      by (by apply map_to_list_insert).
    rewrite fmap_cons, mjoin_cons. simpl. apply (Permutation_app_comm [x]).
Qed.

Lemma flatLocks_node m (nodeLocks : list VolumeLockInfo) :
  flatLocks (foldl groupLock m nodeLocks) ≡ₚ flatLocks m ++ nodeLocks.
Proof.
  revert m. induction nodeLocks as [|x xs IH]; intros m; simpl.
  - by rewrite app_nil_r.
  - rewrite IH, flatLocks_groupLock. by rewrite <- app_assoc.
Qed.

Lemma flatLocks_nodes m (allLocks : list (list VolumeLockInfo)) :
  flatLocks (foldl (fun m nodeLocks => foldl groupLock m nodeLocks) m allLocks)
  ≡ₚ flatLocks m ++ mjoin allLocks.
Proof.
  revert m. induction allLocks as [|xs xss IH]; intros m; simpl.
  - by rewrite app_nil_r.
  - rewrite IH, flatLocks_node. by rewrite <- app_assoc.
Qed.

Lemma flatten_groups (acc : list VolumeLockInfo)
    (l : list (nsParam * list VolumeLockInfo)) :
  foldl (fun groupedLockInfos '(_, volLocks) => groupedLockInfos ++ volLocks)
        acc l
  = acc ++ mjoin l.*2.
Proof.
  revert acc. induction l as [|[k vs] l IH]; intros acc; simpl.
  - by rewrite app_nil_r.
  - rewrite IH. by rewrite <- app_assoc.
Qed.

(** The merge returns the entries of all the nodes, each as often as the
    nodes returned it, whatever the order of the pass over the groups. *)
Lemma mergeLocks_Permutation (allLocks : list (list VolumeLockInfo)) :
  mergeLocks rg allLocks ≡ₚ mjoin allLocks.
Proof.
  unfold mergeLocks. rewrite flatten_groups. simpl.
  rewrite <- (flatLocks_as _ _ (symmetry (range_visits_once rg _))).
  rewrite flatLocks_nodes. by unfold flatLocks; rewrite map_to_list_empty.
Qed.

(** ** The aggregator in closed form *)

Lemma listPeerLocksInfo_closed cp0 remotePeers :
  listPeerLocksInfo ro ri globalNSMutex timeNow re rg (cp0 :: remotePeers)
                    bucket prefix relTime
  = let peers := cp0 :: remotePeers in
    let r := reduceErrs re (errOf <$> peers) [] in
    match r.2 with
    | Some e =>
        if (quorum (length peers) <=? r.1)%nat then Some (None, Some e)
        else Some (None, Some InsufficientReadQuorum)
    | None => Some (Some (mergeLocks rg (locksOf <$> peers)), None)
    end.
Proof.
  unfold listPeerLocksInfo. cbv zeta.
  change (length (cp0 :: remotePeers) / 2 + 1)%nat
    with (quorum (length (cp0 :: remotePeers))).
  generalize (quorum (length (cp0 :: remotePeers))). intros q.
  cbn [length replicate].
  change (imap pair remotePeers)
    with (imap (fun i => pair (0 + i)%nat) remotePeers).
  change (None :: replicate (length remotePeers) None)
    with ([None : option error] ++ replicate (length remotePeers) None).
  change ([] :: replicate (length remotePeers) [])
    with ([[] : list VolumeLockInfo] ++ replicate (length remotePeers) []).
  rewrite (listPeerLocksInfo_fanout remotePeers 0 [[]] [None]) by done.
  rewrite !fmap_cons. unfold locksOf, errOf, peerLocks, peerErr.
  destruct (ListLocks ro ri globalNSMutex timeNow (cmdRunner cp0)
              bucket prefix relTime) as [locks err]. simpl.
  by destruct (reduceErrs re _ []) as [errCount [e|]].
Qed.

Lemma listPeerLocksInfo_no_error peers :
  peers ≠ [] → (∀ e, Some e ∉ errOf <$> peers) →
  listPeerLocksInfo ro ri globalNSMutex timeNow re rg peers
                    bucket prefix relTime
  = Some (Some (mergeLocks rg (locksOf <$> peers)), None).
Proof.
  intros Hne Hnone. destruct peers as [|cp0 remotePeers]; [done|].
  rewrite listPeerLocksInfo_closed. cbv zeta.
  destruct (reduceErrs_spec re (errOf <$> cp0 :: remotePeers))
    as (_ & [[-> _] | (e & _ & Hin)]); [done|].
  by destruct (Hnone e).
Qed.

Lemma listPeerLocksInfo_some_error peers e0 :
  peers ≠ [] → Some e0 ∈ errOf <$> peers →
  ∃ e, Some e ∈ errOf <$> peers
       ∧ (∀ e', (occurrences e' (errOf <$> peers)
                 ≤ occurrences e (errOf <$> peers))%nat)
       ∧ listPeerLocksInfo ro ri globalNSMutex timeNow re rg peers
                           bucket prefix relTime
         = if (quorum (length peers) <=? occurrences e (errOf <$> peers))%nat
           then Some (None, Some e)
           else Some (None, Some InsufficientReadQuorum).
Proof.
  intros Hne Hin. destruct peers as [|cp0 remotePeers]; [done|].
  rewrite listPeerLocksInfo_closed. cbv zeta.
  destruct (reduceErrs_spec re (errOf <$> cp0 :: remotePeers))
    as (Hmax & [[_ Hnone] | (e & Hr & He)]); [by destruct (Hnone e0)|].
  rewrite Hr in Hmax |- *. exists e. cbn [fst snd] in *. by repeat split.
Qed.

End FanOutFacts.

(** ** Properties of the fan-out *)

Lemma errs_dichotomy (errs : list (option error)) :
  (∀ e, Some e ∉ errs) ∨ (∃ e, Some e ∈ errs).
Proof.
  induction errs as [|[e|] errs [Hno|[e' He']]].
  - left. by intros e ?%elem_of_nil.
  - right. exists e. left.
  - right. exists e. left.
  - left. intros e [?|?]%elem_of_cons; [done|]. by apply (Hno e).
  - right. exists e'. by right.
Qed.

(** C1.  For a non-empty list of N peers and any answers of theirs to
    [ListLocks]: an error value returned by at least N/2 + 1 peers is the
    most frequent one, and [listPeerLocksInfo] returns it and no list; if
    some peer returned an error and no error value reaches that count, it
    returns [InsufficientReadQuorum] and no list; if no peer returned an
    error, it returns no error and the merge of all the peers' lists; and
    whenever it returns a list, no peer had an error and the list holds the
    entries of all of them. *)
Theorem listPeerLocksInfo_quorum ro ri g timeNow re rg
    (peers : adminPeers) (bucket prefix : string) (relTime : time.Duration) :
  peers ≠ [] →
  let errs := peerErr ro ri g timeNow bucket prefix relTime <$> peers in
  let allLocks := peerLocks ro ri g timeNow bucket prefix relTime <$> peers in
  let res :=
    listPeerLocksInfo ro ri g timeNow re rg peers bucket prefix relTime in
  (∀ e, (quorum (length peers) ≤ occurrences e errs)%nat →
        (∀ e', (occurrences e' errs ≤ occurrences e errs)%nat)
        ∧ res = Some (None, Some e))
  ∧ ((∃ e, Some e ∈ errs) →
     (∀ e, (occurrences e errs < quorum (length peers))%nat) →
     res = Some (None, Some InsufficientReadQuorum))
  ∧ ((∀ e, Some e ∉ errs) →
     ∃ merged, res = Some (Some merged, None) ∧ merged ≡ₚ mjoin allLocks)
  ∧ (∀ l err, res = Some (Some l, err) →
              err = None ∧ (∀ e, Some e ∉ errs) ∧ l ≡ₚ mjoin allLocks).
Proof.
  intros Hne errs allLocks res.
  assert (length errs = length peers) as Hlen by apply length_fmap.
  assert ((∀ e, Some e ∉ errs) →
          res = Some (Some (mergeLocks rg allLocks), None)) as Hnone.
  { intros Hno. by apply listPeerLocksInfo_no_error. }
  assert (∀ e0, Some e0 ∈ errs →
            ∃ e, Some e ∈ errs
                 ∧ (∀ e', (occurrences e' errs ≤ occurrences e errs)%nat)
                 ∧ res = if (quorum (length peers) <=? occurrences e errs)%nat
                         then Some (None, Some e)
                         else Some (None, Some InsufficientReadQuorum))
    as Hsome.
  { intros e0 He0. by apply (listPeerLocksInfo_some_error _ _ _ _ _ _ _ _ _ _ e0). }
  repeat split.
  - intros e'. destruct (decide (e' = e)) as [->|Hd]; [done|].
    pose proof (occurrences_disjoint e e' errs (not_eq_sym Hd)) as Hdis.
    unfold quorum in H.
    pose proof (Nat.div_mod_eq (length peers) 2) as Hdm.
    pose proof (Nat.mod_upper_bound (length peers) 2) as Hmod. lia.
  - assert (Some e ∈ errs) as He.
    { apply occurrences_pos. unfold quorum in H. lia. }
    destruct (Hsome e He) as (e1 & He1 & Hmax & ->).
    assert (e1 = e) as ->.
    { destruct (decide (e1 = e)) as [|Hd]; [done|].
      pose proof (occurrences_disjoint e e1 errs (not_eq_sym Hd)) as Hdis.
      pose proof (Hmax e) as Hle. unfold quorum in H.
      pose proof (Nat.div_mod_eq (length peers) 2) as Hdm.
      pose proof (Nat.mod_upper_bound (length peers) 2) as Hmod. lia. }
    by destruct (Nat.leb_spec (quorum (length peers)) (occurrences e errs));
      [|lia].
  - intros [e0 He0] Hlow.
    destruct (Hsome e0 He0) as (e1 & _ & _ & ->).
    destruct (Nat.leb_spec (quorum (length peers)) (occurrences e1 errs));
      [|done].
    pose proof (Hlow e1). lia.
  - intros Hno. exists (mergeLocks rg allLocks). split; [by apply Hnone|].
    apply mergeLocks_Permutation.
  - destruct (errs_dichotomy errs) as [Hno|[e0 He0]].
    + rewrite Hnone in H by done. by injection H as _ <-.
    + destruct (Hsome e0 He0) as (e1 & _ & _ & Hres). rewrite Hres in H.
      by destruct (quorum (length peers) <=? occurrences e1 errs)%nat.
  - intros e0 He0.
    destruct (Hsome e0 He0) as (e1 & _ & _ & Hres). rewrite Hres in H.
    by destruct (quorum (length peers) <=? occurrences e1 errs)%nat.
  - destruct (errs_dichotomy errs) as [Hno|[e0 He0]].
    + rewrite Hnone in H by done.
      injection H as <- _. apply mergeLocks_Permutation.
    + destruct (Hsome e0 He0) as (e1 & _ & _ & Hres). rewrite Hres in H.
      by destruct (quorum (length peers) <=? occurrences e1 errs)%nat.
Qed.

Lemma listPeerLocksInfo_quorum_witness :
  let peers :=
    [localPeer "n1:9000"; refusing "n2:9000"; refusing "n3:9000"] in
  let errs := peerErr ascending (fun _ => ascending) tableTwoOps 1000
                      "b" "" 0 <$> peers in
  (∀ e', (occurrences e' errs
          ≤ occurrences (errOther "connection refused") errs)%nat)
  ∧ listPeerLocksInfo ascending (fun _ => ascending) tableTwoOps 1000
                      ascending ascending peers "b" "" 0
    = Some (None, Some (errOther "connection refused")).
Proof.
  intros peers errs.
  destruct (listPeerLocksInfo_quorum ascending (fun _ => ascending)
              tableTwoOps 1000 ascending ascending peers "b" "" 0)
    as (Hdecisive & _).
  - discriminate.
  - apply Hdecisive. vm_compute. lia.
Defined.

(** The two scenarios of the specification on three nodes: one node
    unreachable is inconclusive; with none unreachable the lists are
    merged. *)
Example listPeerLocksInfo_inconclusive :
  listPeerLocksInfo ascending (fun _ => ascending) tableTwoOps 1000
                    ascending ascending examplePeers "b" "" 0
  = Some (None, Some InsufficientReadQuorum).
Proof. vm_compute. reflexivity. Qed.

(** C5.  When no peer returns an error, [listPeerLocksInfo] returns,
    with no error, a list that is a permutation of the concatenation of the
    peers' lists: every entry of every peer is in it as the peer returned
    it and as often as the peers returned it, and nothing else is. *)
Theorem listPeerLocksInfo_merge ro ri g timeNow re rg
    (peers : adminPeers) (bucket prefix : string) (relTime : time.Duration) :
  peers ≠ [] →
  (∀ cp, cp ∈ peers → peerErr ro ri g timeNow bucket prefix relTime cp = None) →
  ∃ merged,
    listPeerLocksInfo ro ri g timeNow re rg peers bucket prefix relTime
    = Some (Some merged, None)
    ∧ merged ≡ₚ mjoin (peerLocks ro ri g timeNow bucket prefix relTime <$> peers).
Proof.
  intros Hne Hok.
  exists (mergeLocks rg (peerLocks ro ri g timeNow bucket prefix relTime <$> peers)).
  split; [|apply mergeLocks_Permutation].
  apply listPeerLocksInfo_no_error; [done|].
  intros e (cp & Hcp & Hin)%list_elem_of_fmap.
  rewrite (Hok cp Hin) in Hcp. discriminate.
Qed.

Lemma listPeerLocksInfo_merge_witness :
  let peers :=
    [localPeer "n1:9000"; answering "n2:9000" [lockOn "b" "o"];
     answering "n3:9000" [lockOn "b" "o"; lockOn "b" "p"]] in
  ∃ merged,
    listPeerLocksInfo ascending (fun _ => ascending) tableTwoOps 1000
                      ascending ascending peers "b" "" 0
    = Some (Some merged, None)
    ∧ merged ≡ₚ mjoin (peerLocks ascending (fun _ => ascending) tableTwoOps
                                 1000 "b" "" 0 <$> peers).
Proof.
  intros peers.
  apply (listPeerLocksInfo_merge ascending (fun _ => ascending) tableTwoOps
           1000 ascending ascending peers "b" "" 0).
  - discriminate.
  - intros cp Hin. unfold peers in Hin.
    repeat (apply elem_of_cons in Hin as [-> | Hin]); try reflexivity.
    by apply elem_of_nil in Hin.
Defined.

Lemma posted_agree cmd (cps cps' : adminPeers) :
  Forall2 (fun cp cp' => posted cmd cp = posted cmd cp') cps cps' →
  posted cmd <$> cps = posted cmd <$> cps'.
Proof.
  induction 1 as [|cp cp' cps cps' Heq _ IH]; [done|].
  by rewrite !fmap_cons, Heq, IH.
Qed.

(** C6.  [sendServiceCmd] on a non-empty list of peers: slot [i] of the
    local slice [errs] receives the outcome of peer [i], and nothing of it
    reaches the caller.  The call has no result; its effect, the command
    sent on the local signal channel once per local runner, is the same
    whatever the peers answer: two lists of peers whose runners are local at
    the same positions leave the same channel behind. *)
Theorem sendServiceCmd_swallows_errors (cps : adminPeers)
    (cmd : serviceSignal) (ch : list serviceSignal) :
  cps ≠ [] →
  ∃ ch',
    sendServiceCmd cps cmd ch = Some ch'
    ∧ sendServiceCmd_errs cps cmd ch = Some (serviceOutcome cmd <$> cps, ch')
    ∧ ch' = ch ++ mjoin (posted cmd <$> tail cps)
               ++ mjoin (posted cmd <$> take 1 cps)
    ∧ (∀ cps', Forall2 (fun cp cp' => posted cmd cp = posted cmd cp') cps cps' →
               sendServiceCmd cps' cmd ch = Some ch').
Proof.
  intros Hne. destruct cps as [|cp0 remotePeers]; [done|].
  exists (ch ++ mjoin (posted cmd <$> remotePeers) ++ posted cmd cp0).
  repeat split.
  - unfold sendServiceCmd. by rewrite sendServiceCmd_errs_closed.
  - apply sendServiceCmd_errs_closed.
  - simpl. by rewrite app_nil_r.
  - intros cps' Hsame. pose proof (posted_agree _ _ _ Hsame) as Heq.
    destruct cps' as [|cp0' remotePeers']; [by inversion Hsame|].
    rewrite !fmap_cons in Heq. injection Heq as Heq0 Heq.
    unfold sendServiceCmd. rewrite sendServiceCmd_errs_closed. simpl.
    by rewrite Heq0, Heq.
Qed.

Lemma sendServiceCmd_swallows_errors_witness :
  ∃ ch',
    sendServiceCmd examplePeers serviceStop [] = Some ch'
    ∧ sendServiceCmd_errs examplePeers serviceStop []
      = Some (serviceOutcome serviceStop <$> examplePeers, ch')
    ∧ ch' = [] ++ mjoin (posted serviceStop <$> tail examplePeers)
               ++ mjoin (posted serviceStop <$> take 1 examplePeers)
    ∧ (∀ cps', Forall2 (fun cp cp' => posted serviceStop cp = posted serviceStop cp')
                       examplePeers cps' →
               sendServiceCmd cps' serviceStop [] = Some ch').
Proof.
  apply (sendServiceCmd_swallows_errors examplePeers serviceStop []).
  vm_compute. discriminate.
Defined.

(** On the registry of the examples, where [n3] refuses the connection:
    the refusal is in slot 2 of [errs], and the caller sees only that the
    stop signal was sent locally. *)
Example sendServiceCmd_with_refusal :
  sendServiceCmd_errs examplePeers serviceStop []
  = Some ([None; None; Some (errOther "connection refused")], [serviceStop])
  ∧ sendServiceCmd examplePeers serviceStop [] = Some [serviceStop].
Proof. vm_compute. done. Qed.

(** ** Properties of the multipart ledger *)

(** C9.  [isMultipartUpload] and [isUploadIDExists] return a boolean and
    nothing else: true when the stat succeeds and false when it fails,
    whatever the error; a failure other than file-not-found returns the
    same false as file-not-found does (it is logged, which the caller does
    not see). *)
Theorem multipart_probes_swallow_errors
    (pathJoin : list string → string)
    (uploadsJSONFile fsMetaJSONFile minioMetaMultipartBucket : string)
    (FileInfo uploadsV1 : Type)
    (fsStatFile : string → FileInfo * option error)
    (fs : fsObjects) (bucket prefix object uploadID : string) :
  (isMultipartUpload pathJoin uploadsJSONFile FileInfo uploadsV1 fsStatFile
                     fs bucket prefix).1
  = bool_decide
      ((fsStatFile (pathJoin [fsPath fs; bucket; prefix; uploadsJSONFile])).2
       = None)
  ∧ (isUploadIDExists pathJoin fsMetaJSONFile minioMetaMultipartBucket
                      FileInfo uploadsV1 fsStatFile fs bucket object uploadID).1
    = bool_decide
        ((fsStatFile
            (pathJoin [fsPath fs; minioMetaMultipartBucket;
                       pathJoin [bucket; object; uploadID]; fsMetaJSONFile])).2
         = None).
Proof.
  unfold isMultipartUpload, isUploadIDExists. split.
  - destruct (fsStatFile _) as [fi [e|]]; simpl; [|done].
    by destruct (bool_decide (e = errFileNotFound)).
  - destruct (fsStatFile _) as [fi [e|]]; simpl; [|done].
    by destruct (bool_decide (e = errFileNotFound)).
Qed.

(** C10.  [removeUploadID]: when the read fails, its error is returned and
    nothing is done to the file; otherwise the upload id is removed from
    the ledger read, and either the remaining ledger is empty, the file is
    deleted and not written, and the result is that of the deletion, or it
    is not empty, the remaining ledger is written back, and the result is
    that of the write. *)
Theorem removeUploadID_outcomes
    (pathJoin : list string → string)
    (uploadsJSONFile minioMetaMultipartBucket : string)
    (uploadsV1 : Type)
    (RemoveUploadID : string → uploadsV1 → uploadsV1)
    (IsEmpty : uploadsV1 → bool)
    (fs : fsObjects) (bucket object uploadID : string)
    (uploadIDs : uploadsV1) (e : error) (deleteErr writeErr : option error) :
  let run := removeUploadID pathJoin uploadsJSONFile minioMetaMultipartBucket
                            uploadsV1 RemoveUploadID IsEmpty
                            fs bucket object uploadID in
  let remaining := RemoveUploadID uploadID uploadIDs in
  let multipartPathBucket := pathJoin [fsPath fs; minioMetaMultipartBucket] in
  let uploadPathBucket :=
    pathJoin [multipartPathBucket; pathJoin [bucket; object; uploadsJSONFile]] in
  run (uploadIDs, Some e) deleteErr writeErr = (Some e, [])
  ∧ run (uploadIDs, None) deleteErr writeErr
    = (if IsEmpty remaining
       then (deleteErr, [effDeleteFile multipartPathBucket uploadPathBucket])
       else (writeErr, [effWriteTo remaining]))
  ∧ (∀ u, effWriteTo u ∈ (run (uploadIDs, None) deleteErr writeErr).2 →
          IsEmpty remaining = false ∧ u = remaining).
Proof.
  intros run remaining multipartPathBucket uploadPathBucket.
  subst run. unfold removeUploadID. fold remaining.
  repeat split; destruct (IsEmpty remaining); simpl in *; try done.
  - apply list_elem_of_singleton in H. discriminate.
  - apply list_elem_of_singleton in H. discriminate.
  - apply list_elem_of_singleton in H. congruence.
Qed.

(** * Further properties *)

(** ** The inspector, object by object *)

Lemma lockKey_objectInfo param dl ds :
  lockKey (foldl appendDetail (objectInfo param dl) ds) = param.
Proof. rewrite foldl_appendDetail. by destruct param. Qed.

Lemma objectState_closed ri timeNow param dl :
  objectState ri timeNow (param, dl)
  = {| Bucket := volume param; Object := path param;
       LocksOnObject := total (obj_counters dl);
       LocksAcquiredOnObject := granted (obj_counters dl);
       TotalBlockedLocks := blocked (obj_counters dl);
       LockDetailsOnObject :=
         detailOf timeNow <$> range (ri param) (lockInfo dl) |}.
Proof. unfold objectState. by rewrite foldl_appendDetail. Qed.

Lemma range_NoDup_fst {K V} `{Countable K} (r : rangeOrder K V) (m : gmap K V) :
  NoDup (range r m).*1.
Proof. rewrite (range_visits_once r m). apply NoDup_fst_map_to_list. Qed.

Lemma range_length {K V} `{Countable K} (r : rangeOrder K V) (m : gmap K V) :
  length (range r m) = size m.
Proof. rewrite (range_visits_once r m). apply length_map_to_list. Qed.

Lemma OperationID_detailOf timeNow (l : list (string * debugLockInfo)) :
  OperationID <$> (detailOf timeNow <$> l) = l.*1.
Proof. rewrite <- list_fmap_compose. by apply list_fmap_ext. Qed.

(** X1.  [getSystemLockState] lists every object of the lock table once,
    the objects that no operation holds included: the names of its entries
    are the keys of the table, none twice. *)
Theorem getSystemLockState_objects ro ri g timeNow :
  let out := LocksInfoPerObject (getSystemLockState ro ri g timeNow).1 in
  lockKey <$> out ≡ₚ (map_to_list (debugLockMap g)).*1
  ∧ NoDup (lockKey <$> out)
  ∧ length out = size (debugLockMap g).
Proof.
  rewrite getSystemLockState_closed. simpl.
  assert (lockKey <$> (objectState ri timeNow <$> range ro (debugLockMap g))
          = (range ro (debugLockMap g)).*1) as ->.
  { rewrite <- list_fmap_compose. apply list_fmap_ext.
    intros _ [param dl] _. simpl. unfold objectState. apply lockKey_objectInfo. }
  repeat split.
  - by rewrite (range_visits_once ro).
  - apply range_NoDup_fst.
  - rewrite length_fmap. apply range_length.
Qed.

(** X2.  An entry is in the result of [getSystemLockState] exactly when
    the table tracks the object it names, its three counters are those of
    the object, and its details are the object's operation records, one
    detail each, in the order [range] met them. *)
Theorem getSystemLockState_entry ro ri g timeNow v :
  v ∈ LocksInfoPerObject (getSystemLockState ro ri g timeNow).1 ↔
  ∃ dl, debugLockMap g !! lockKey v = Some dl
        ∧ LocksOnObject v = total (obj_counters dl)
        ∧ TotalBlockedLocks v = blocked (obj_counters dl)
        ∧ LocksAcquiredOnObject v = granted (obj_counters dl)
        ∧ LockDetailsOnObject v
          = detailOf timeNow <$> range (ri (lockKey v)) (lockInfo dl).
Proof.
  rewrite getSystemLockState_closed. simpl. rewrite list_elem_of_fmap. split.
  - intros ([param dl] & -> & Hin%range_lookup).
    rewrite objectState_closed. exists dl.
    assert (lockKey (objectState ri timeNow (param, dl)) = param) as Hk
      by apply lockKey_objectInfo.
    rewrite objectState_closed in Hk. rewrite Hk. done.
  - intros (dl & Hlk & HL & HB & HA & HD).
    exists (lockKey v, dl). split; [|by apply range_lookup].
    rewrite objectState_closed. destruct v. simpl in *. congruence.
Qed.

(** X3.  In an entry of [getSystemLockState] the operation ids of the
    details are those of the object's records, none twice; each duration
    is an [int64], and it is negative exactly when the record is stamped
    after the sample. *)
Theorem getSystemLockState_entry_details ro ri g timeNow v dl :
  v ∈ LocksInfoPerObject (getSystemLockState ro ri g timeNow).1 →
  debugLockMap g !! lockKey v = Some dl →
  OperationID <$> LockDetailsOnObject v ≡ₚ (map_to_list (lockInfo dl)).*1
  ∧ NoDup (OperationID <$> LockDetailsOnObject v)
  ∧ length (LockDetailsOnObject v) = size (lockInfo dl)
  ∧ ∀ d, d ∈ LockDetailsOnObject v →
         time.minDuration <= Duration d <= time.maxDuration
         ∧ (Duration d < 0 ↔ timeNow < Since d).
Proof.
  rewrite getSystemLockState_closed. simpl. rewrite list_elem_of_fmap.
  intros ([param dl'] & -> & Hin%range_lookup).
  assert (lockKey (objectState ri timeNow (param, dl')) = param) as ->
    by apply lockKey_objectInfo.
  rewrite Hin. intros [= ->]. rewrite objectState_closed. simpl.
  rewrite OperationID_detailOf. repeat split.
  - by rewrite (range_visits_once (ri param)).
  - apply range_NoDup_fst.
  - rewrite length_fmap. apply range_length.
  - apply list_elem_of_fmap in H as (rec & -> & _). apply Sub_bounds.
  - apply list_elem_of_fmap in H as (rec & -> & _). apply Sub_bounds.
  - apply list_elem_of_fmap in H as (rec & -> & _). simpl.
    pose proof (Sub_nonneg timeNow (since rec.2)). lia.
  - apply list_elem_of_fmap in H as (rec & -> & _). simpl.
    pose proof (Sub_nonneg timeNow (since rec.2)). lia.
Qed.

Lemma getSystemLockState_entry_details_witness :
  let v := objectState (fun _ => ascending) 1000 (NsParam "b" "o", twoOps) in
  OperationID <$> LockDetailsOnObject v ≡ₚ (map_to_list (lockInfo twoOps)).*1
  ∧ NoDup (OperationID <$> LockDetailsOnObject v)
  ∧ length (LockDetailsOnObject v) = size (lockInfo twoOps)
  ∧ ∀ d, d ∈ LockDetailsOnObject v →
         time.minDuration <= Duration d <= time.maxDuration
         ∧ (Duration d < 0 ↔ 1000 < Since d).
Proof.
  intros v.
  apply (getSystemLockState_entry_details ascending (fun _ => ascending)
           tableTwoOps 1000 v twoOps).
  - vm_compute. apply list_elem_of_here.
  - vm_compute. reflexivity.
Defined.

(** ** What [listLocksInfo] puts out *)

Lemma objectEntries_elem ri timeNow bucket prefix relTime param dl v :
  v ∈ objectEntries ri timeNow bucket prefix relTime (param, dl) ↔
  matchesObject bucket prefix param = true
  ∧ ∃ k, let full := detailOf timeNow <$>
                       filter (fun r => oldEnough timeNow relTime r)
                              (range (ri param) (lockInfo dl)) in
         (k < length full)%nat
         ∧ v = foldl appendDetail (objectInfo param dl) (take (S k) full).
Proof.
  unfold objectEntries. simpl.
  destruct (matchesObject bucket prefix param).
  - rewrite cumulative_elem. cbv zeta. split.
    + intros Hk. by split.
    + by intros [_ Hk].
  - split; [by intros ?%elem_of_nil | by intros [? _]].
Qed.

(** X4.  Every entry [listLocksInfo] returns names an object of the
    requested bucket whose path starts with the prefix, carries that
    object's counters and at least one detail, no operation twice; and each
    detail is a record of that object, with a duration of at least
    [relTime]. *)
Theorem listLocksInfo_entry ro ri g timeNow bucket prefix relTime v :
  v ∈ listLocksInfo ro ri g timeNow bucket prefix relTime →
  Bucket v = bucket ∧ String.prefix prefix (Object v) = true
  ∧ ∃ dl, debugLockMap g !! lockKey v = Some dl
          ∧ LocksOnObject v = total (obj_counters dl)
          ∧ TotalBlockedLocks v = blocked (obj_counters dl)
          ∧ LocksAcquiredOnObject v = granted (obj_counters dl)
          ∧ LockDetailsOnObject v ≠ []
          ∧ NoDup (OperationID <$> LockDetailsOnObject v)
          ∧ ∀ d, d ∈ LockDetailsOnObject v →
                 ∃ li, lockInfo dl !! OperationID d = Some li
                       ∧ d = detailOf timeNow (OperationID d, li)
                       ∧ relTime <= Duration d <= time.maxDuration.
Proof.
  intros (param & dl & Hlk & Hv)%elem_of_listLocksInfo.
  apply objectEntries_elem in Hv as (Hm & k & Hk & ->).
  apply matchesObject_spec in Hm as [Hvol Hpre].
  rewrite lockKey_objectInfo, foldl_appendDetail. simpl.
  repeat split; try done.
  exists dl. repeat split; try done.
  - destruct (detailOf timeNow <$> _) as [|d ds]; [simpl in Hk; lia | done].
  - rewrite <- fmap_take, OperationID_detailOf.
    eapply sublist_NoDup; [apply (range_NoDup_fst (ri param) (lockInfo dl))|].
    apply fmap_sublist. etrans; [apply sublist_take | apply sublist_filter].
  - intros d Hd. apply (subseteq_take (S k)) in Hd.
    apply list_elem_of_fmap in Hd as ([opsID li] & -> & Hin).
    apply list_elem_of_filter in Hin as [Hold Hin].
    apply oldEnough_spec in Hold. apply range_lookup in Hin.
    exists li. simpl in *. repeat split; try done. apply Sub_bounds.
Qed.

Lemma listLocksInfo_entry_witness :
  let v := appendDetail (objectInfo (NsParam "b" "o") twoOps)
                        (detailOf 1000 ("op1"%string, op1)) in
  Bucket v = "b"%string ∧ String.prefix "" (Object v) = true
  ∧ ∃ dl, debugLockMap tableTwoOps !! lockKey v = Some dl
          ∧ LocksOnObject v = total (obj_counters dl)
          ∧ TotalBlockedLocks v = blocked (obj_counters dl)
          ∧ LocksAcquiredOnObject v = granted (obj_counters dl)
          ∧ LockDetailsOnObject v ≠ []
          ∧ NoDup (OperationID <$> LockDetailsOnObject v)
          ∧ ∀ d, d ∈ LockDetailsOnObject v →
                 ∃ li, lockInfo dl !! OperationID d = Some li
                       ∧ d = detailOf 1000 (OperationID d, li)
                       ∧ 0 <= Duration d <= time.maxDuration.
Proof.
  intros v.
  apply (listLocksInfo_entry ascending (fun _ => ascending) tableTwoOps 1000
           "b" "" 0 v).
  vm_compute. apply list_elem_of_here.
Defined.

(** X5.  An object that no operation holds has its entry, with no
    detail, in the result of [getSystemLockState], and none in the result
    of [listLocksInfo], whatever the bucket, prefix and age asked for. *)
Theorem idle_object_listed_by_system_state_only ro ri g timeNow
    bucket prefix relTime param dl :
  debugLockMap g !! param = Some dl → lockInfo dl = ∅ →
  objectInfo param dl ∈ LocksInfoPerObject (getSystemLockState ro ri g timeNow).1
  ∧ ∀ v, v ∈ listLocksInfo ro ri g timeNow bucket prefix relTime →
         lockKey v ≠ param.
Proof.
  intros Hlk Hempty. split.
  - rewrite getSystemLockState_closed. simpl. apply list_elem_of_fmap.
    exists (param, dl). split; [|by apply range_lookup].
    rewrite objectState_closed.
    assert (range (ri param) (lockInfo dl) = []) as ->; [|done].
    apply Permutation_nil_r. rewrite (range_visits_once (ri param)), Hempty.
    by rewrite map_to_list_empty.
  - intros v (param' & dl' & Hlk' & Hv)%elem_of_listLocksInfo Hk.
    apply objectEntries_elem in Hv as (_ & k & Hlt & ->).
    rewrite lockKey_objectInfo in Hk. subst param'.
    rewrite Hlk in Hlk'. injection Hlk' as <-.
    assert (range (ri param) (lockInfo dl) = []) as Hnil.
    { apply Permutation_nil_r. rewrite (range_visits_once (ri param)), Hempty.
      by rewrite map_to_list_empty. }
    rewrite Hnil in Hlt. simpl in Hlt. lia.
Qed.

Lemma idle_object_listed_by_system_state_only_witness :
  objectInfo (NsParam "b" "idle") noOps
    ∈ LocksInfoPerObject
        (getSystemLockState ascending (fun _ => ascending) tableIdle 1000).1
  ∧ ∀ v, v ∈ listLocksInfo ascending (fun _ => ascending) tableIdle 1000 "b" "" 0 →
         lockKey v ≠ NsParam "b" "idle".
Proof.
  apply (idle_object_listed_by_system_state_only ascending (fun _ => ascending)
           tableIdle 1000 "b" "" 0 (NsParam "b" "idle") noOps);
    vm_compute; reflexivity.
Defined.
(** ** How many entries, and how the filters narrow them *)

Lemma sum_list_fmap_Permutation {A} (f : A → nat) (l l' : list A) :
  l ≡ₚ l' → sum_list (f <$> l) = sum_list (f <$> l').
Proof.
  induction 1 as [|x l l' _ IH|x y l|l l' l'' _ IH1 _ IH2];
    rewrite ?fmap_cons; simpl; lia.
Qed.

Lemma sum_list_fmap_le {A} (f f' : A → nat) (l : list A) :
  (∀ x, (f x ≤ f' x)%nat) → (sum_list (f <$> l) ≤ sum_list (f' <$> l))%nat.
Proof.
  intros Hle. induction l as [|x l IH]; [done|].
  rewrite !fmap_cons. simpl. pose proof (Hle x). lia.
Qed.

Lemma filter_length_mono {A} (P Q : A → Prop)
    `{∀ x, Decision (P x)} `{∀ x, Decision (Q x)} (l : list A) :
  (∀ x, P x → Q x) → (length (filter P l) ≤ length (filter Q l))%nat.
Proof.
  intros Himp. induction l as [|x l IH]; [done|].
  rewrite !filter_cons.
  destruct (decide (P x)) as [HP|HP], (decide (Q x)) as [HQ|HQ]; simpl; try lia.
  by destruct HQ; apply Himp.
Qed.

Lemma objectEntries_length ri timeNow bucket prefix relTime entry :
  length (objectEntries ri timeNow bucket prefix relTime entry)
  = length (passingRecords timeNow bucket prefix relTime entry).
Proof.
  unfold objectEntries, passingRecords.
  destruct (matchesObject bucket prefix entry.1); [|done].
  rewrite cumulative_length, length_fmap.
  by rewrite (range_visits_once (ri entry.1)).
Qed.

Lemma listLocksInfo_length_count ro ri g timeNow bucket prefix relTime :
  length (listLocksInfo ro ri g timeNow bucket prefix relTime)
  = passingCount timeNow bucket prefix relTime g.
Proof.
  rewrite listLocksInfo_closed, length_join, <- list_fmap_compose.
  unfold passingCount.
  rewrite <- (sum_list_fmap_Permutation _ _ _ (range_visits_once ro _)).
  f_equal. apply list_fmap_ext. intros _ entry _. apply objectEntries_length.
Qed.

Lemma passingCount_antitone timeNow bucket prefix relTime relTime' g :
  relTime <= relTime' →
  (passingCount timeNow bucket prefix relTime' g
   ≤ passingCount timeNow bucket prefix relTime g)%nat.
Proof.
  intros Hle. apply sum_list_fmap_le. intros entry. simpl.
  unfold passingRecords. destruct (matchesObject bucket prefix entry.1); [|done].
  apply filter_length_mono. intros rec.
  rewrite !oldEnough_spec. lia.
Qed.

(** An entry emitted for a record comes from a record of the table. *)
Lemma emittedFor_inv ro ri g timeNow bucket prefix relTime param d :
  emittedFor (listLocksInfo ro ri g timeNow bucket prefix relTime) param d →
  ∃ dl opsID li, debugLockMap g !! param = Some dl
                 ∧ lockInfo dl !! opsID = Some li
                 ∧ d = detailOf timeNow (opsID, li).
Proof.
  intros (v & Hv & HB & HO & Hlast).
  apply elem_of_listLocksInfo in Hv as (param' & dl & Hlk & Hv).
  unfold objectEntries in Hv. simpl in Hv.
  destruct (matchesObject bucket prefix param'); [|by apply elem_of_nil in Hv].
  apply cumulative_last in Hv as (d' & Hd' & Hlast' & HB' & HO').
  simpl in HB', HO'. rewrite Hlast in Hlast'. injection Hlast' as <-.
  apply list_elem_of_fmap in Hd' as ([opsID li] & -> & Hin).
  apply list_elem_of_filter in Hin as [_ Hin%range_lookup].
  exists dl, opsID, li. repeat split; [|done].
  replace param with param'; [done|].
  destruct param, param'. simpl in *. congruence.
Qed.

(** X6.  The number of entries [listLocksInfo] returns is the number of
    operation records that pass its three filters; it does not depend on
    the order in which [range] visits the table or an object's records, and
    the order over the table only permutes the entries. *)
Theorem listLocksInfo_length ro ri ro' ri' g timeNow bucket prefix relTime :
  length (listLocksInfo ro ri g timeNow bucket prefix relTime)
  = passingCount timeNow bucket prefix relTime g
  ∧ length (listLocksInfo ro' ri' g timeNow bucket prefix relTime)
    = length (listLocksInfo ro ri g timeNow bucket prefix relTime)
  ∧ listLocksInfo ro' ri g timeNow bucket prefix relTime
    ≡ₚ listLocksInfo ro ri g timeNow bucket prefix relTime.
Proof.
  rewrite !listLocksInfo_length_count. repeat split.
  rewrite !listLocksInfo_closed. apply mjoin_Permutation, fmap_Permutation.
  by rewrite (range_visits_once ro), (range_visits_once ro').
Qed.

(** X7.  Asking for older locks returns fewer: with a greater [relTime],
    on the same table and sample, every record that contributes did so
    with the smaller one, and the list is no longer. *)
Theorem listLocksInfo_relTime_antitone ro ri ro' ri' g timeNow bucket prefix
    (relTime relTime' : time.Duration) :
  relTime <= relTime' →
  (length (listLocksInfo ro' ri' g timeNow bucket prefix relTime')
   ≤ length (listLocksInfo ro ri g timeNow bucket prefix relTime))%nat
  ∧ ∀ param d,
      emittedFor (listLocksInfo ro' ri' g timeNow bucket prefix relTime') param d →
      emittedFor (listLocksInfo ro ri g timeNow bucket prefix relTime) param d.
Proof.
  intros Hle. split.
  - rewrite !listLocksInfo_length_count. by apply passingCount_antitone.
  - intros param d Hem.
    destruct (emittedFor_inv _ _ _ _ _ _ _ _ _ Hem)
      as (dl & opsID & li & Hlk & Hli & ->).
    apply (emittedFor_listLocksInfo _ _ _ _ _ _ _ _ dl _ _ Hlk Hli) in Hem
      as (Hvol & Hpre & Hold).
    apply (emittedFor_listLocksInfo _ _ _ _ _ _ _ _ dl _ _ Hlk Hli).
    repeat split; [done..|lia].
Qed.

Lemma listLocksInfo_relTime_antitone_witness :
  (length (listLocksInfo descending (fun _ => descending) tableTwoOps 1000%Z
                         "b" "" 850%Z)
   ≤ length (listLocksInfo ascending (fun _ => ascending) tableTwoOps 1000%Z
                           "b" "" 0%Z))%nat
  ∧ ∀ param d,
      emittedFor (listLocksInfo descending (fun _ => descending) tableTwoOps 1000
                                "b" "" 850) param d →
      emittedFor (listLocksInfo ascending (fun _ => ascending) tableTwoOps 1000
                                "b" "" 0) param d.
Proof.
  apply (listLocksInfo_relTime_antitone ascending (fun _ => ascending)
           descending (fun _ => descending) tableTwoOps 1000 "b" "" 0 850).
  lia.
Defined.

Lemma String_prefix_trans (p q s : string) :
  String.prefix p q = true → String.prefix q s = true →
  String.prefix p s = true.
Proof.
  revert p q. induction s as [|c s IH]; intros [|a p] [|b q]; simpl; try done.
  destruct (Ascii.ascii_dec a b) as [<-|]; [|done].
  destruct (Ascii.ascii_dec a c) as [<-|]; [|done].
  apply IH.
Qed.

(** X8.  A longer prefix narrows the result: when [prefix] is a prefix of
    [prefix'], the list for [prefix'] is the list for [prefix] with the
    entries of some objects left out, the others in the same order. *)
Theorem listLocksInfo_prefix_narrows ro ri g timeNow bucket
    (prefix prefix' : string) relTime :
  String.prefix prefix prefix' = true →
  listLocksInfo ro ri g timeNow bucket prefix' relTime
  `sublist_of` listLocksInfo ro ri g timeNow bucket prefix relTime.
Proof.
  intros Hpre. rewrite !listLocksInfo_closed.
  induction (range ro (debugLockMap g)) as [|entry l IH]; [done|].
  rewrite !fmap_cons, !mjoin_cons. apply sublist_app; [|done].
  unfold objectEntries.
  destruct (matchesObject bucket prefix' entry.1) eqn:Hm'; [|apply sublist_nil_l].
  apply matchesObject_spec in Hm' as [Hvol Hp'].
  assert (matchesObject bucket prefix entry.1 = true) as ->; [|done].
  apply matchesObject_spec. split; [done|].
  by apply (String_prefix_trans _ prefix').
Qed.

Lemma listLocksInfo_prefix_narrows_witness :
  listLocksInfo ascending (fun _ => ascending) tableIdle 1000 "b" "o" 0
  `sublist_of` listLocksInfo ascending (fun _ => ascending) tableIdle 1000 "b" "" 0.
Proof.
  apply (listLocksInfo_prefix_narrows ascending (fun _ => ascending)
           tableIdle 1000 "b" "" "o" 0).
  reflexivity.
Defined.

(** X9.  With [relTime] at the least [Duration] the filter on age lets
    every record through, whatever the clock: each record of each object of
    the bucket under the prefix contributes an entry. *)
Theorem listLocksInfo_least_relTime ro ri g timeNow bucket prefix relTime
    param dl opsID li :
  relTime <= time.minDuration →
  debugLockMap g !! param = Some dl →
  lockInfo dl !! opsID = Some li →
  volume param = bucket → String.prefix prefix (path param) = true →
  emittedFor (listLocksInfo ro ri g timeNow bucket prefix relTime) param
             (detailOf timeNow (opsID, li)).
Proof.
  intros Hrel Hlk Hli Hvol Hpre.
  apply (emittedFor_listLocksInfo _ _ _ _ _ _ _ _ dl _ _ Hlk Hli).
  repeat split; [done..|].
  pose proof (Sub_bounds timeNow (since li)). lia.
Qed.

Lemma listLocksInfo_least_relTime_witness :
  emittedFor (listLocksInfo ascending (fun _ => ascending) tableAhead 5
                            "b" "" time.minDuration)
             (NsParam "b" "o") (detailOf 5 ("op1"%string, opAhead)).
Proof.
  apply (listLocksInfo_least_relTime ascending (fun _ => ascending) tableAhead 5
           "b" "" time.minDuration (NsParam "b" "o") oneOpAhead "op1" opAhead);
    vm_compute; done.
Defined.

(** ** The run of entries of one object *)

Lemma entriesOf_objectEntries ri timeNow bucket prefix relTime param dl :
  entriesOf param (objectEntries ri timeNow bucket prefix relTime (param, dl))
  = objectEntries ri timeNow bucket prefix relTime (param, dl).
Proof.
  apply filter_all. intros v Hv. unfold objectEntries in Hv.
  destruct (matchesObject bucket prefix (param, dl).1);
    [|by apply elem_of_nil in Hv].
  by apply cumulative_names in Hv as (? & ? & _).
Qed.

(** The entries of an object are those its pass of the outer loop
    appended, and they lie next to one another in the result. *)
Lemma listLocksInfo_run ro ri g timeNow bucket prefix relTime param dl :
  debugLockMap g !! param = Some dl →
  ∃ before after,
    listLocksInfo ro ri g timeNow bucket prefix relTime
    = before ++ objectEntries ri timeNow bucket prefix relTime (param, dl)
             ++ after
    ∧ entriesOf param before = [] ∧ entriesOf param after = [].
Proof.
  intros Hlk%(range_lookup ro). rewrite listLocksInfo_closed.
  pose proof (range_NoDup_fst ro (debugLockMap g)) as Hnd.
  apply list_elem_of_split in Hlk as (l1 & l2 & Hl). rewrite Hl in Hnd |- *.
  rewrite fmap_app, fmap_cons in Hnd. simpl in Hnd.
  apply NoDup_app in Hnd as (_ & Hl1 & [Hl2 _]%NoDup_cons).
  exists (mjoin (objectEntries ri timeNow bucket prefix relTime <$> l1)),
         (mjoin (objectEntries ri timeNow bucket prefix relTime <$> l2)).
  split; [|split].
  - by rewrite fmap_app, fmap_cons, join_app, mjoin_cons.
  - apply entriesOf_other. intros e He Heq.
    apply (Hl1 e.1); [by apply list_elem_of_fmap_2 | rewrite Heq; left].
  - apply entriesOf_other. intros e He Heq.
    apply Hl2. rewrite <- Heq. by apply list_elem_of_fmap_2.
Qed.

Lemma entriesOf_listLocksInfo ro ri g timeNow bucket prefix relTime param dl :
  debugLockMap g !! param = Some dl →
  entriesOf param (listLocksInfo ro ri g timeNow bucket prefix relTime)
  = objectEntries ri timeNow bucket prefix relTime (param, dl).
Proof.
  intros Hlk.
  destruct (listLocksInfo_run ro ri g timeNow bucket prefix relTime _ _ Hlk)
    as (before & after & -> & Hb & Ha).
  by rewrite !entriesOf_app, Hb, Ha, entriesOf_objectEntries, app_nil_r.
Qed.

Lemma cumulative_final v0 ds :
  last (cumulative v0 ds)
  = match ds with [] => None | _ => Some (foldl appendDetail v0 ds) end.
Proof.
  revert v0. induction ds as [|d ds IH]; intros v0; [done|].
  simpl cumulative. rewrite last_cons, IH. by destruct ds.
Qed.

(** X10.  The entries [listLocksInfo] returns for one object lie next to
    one another, and the entry at position [j] among them carries the
    first [j + 1] of the object's records that pass the filter on age, in
    the order [range] met them; so each entry's details extend those of the
    entry before. *)
Theorem listLocksInfo_object_run ro ri g timeNow bucket prefix relTime param dl :
  debugLockMap g !! param = Some dl →
  let out := listLocksInfo ro ri g timeNow bucket prefix relTime in
  let run := entriesOf param out in
  let full := detailOf timeNow <$>
                filter (fun r => oldEnough timeNow relTime r)
                       (range (ri param) (lockInfo dl)) in
  (∃ before after, out = before ++ run ++ after
                   ∧ entriesOf param before = [] ∧ entriesOf param after = [])
  ∧ (∀ j v, run !! j = Some v →
            (j < length full)%nat ∧ LockDetailsOnObject v = take (S j) full)
  ∧ (∀ i j v v', run !! i = Some v → run !! j = Some v' → (i ≤ j)%nat →
                 LockDetailsOnObject v `prefix_of` LockDetailsOnObject v').
Proof.
  intros Hlk out run full. subst out run.
  rewrite (entriesOf_listLocksInfo _ _ _ _ _ _ _ _ _ Hlk).
  assert (∀ j v,
    objectEntries ri timeNow bucket prefix relTime (param, dl) !! j = Some v →
    (j < length full)%nat ∧ LockDetailsOnObject v = take (S j) full) as Hrun.
  { intros j v Hv. unfold objectEntries in Hv. simpl in Hv.
    destruct (matchesObject bucket prefix param); [|done].
    split.
    - apply lookup_lt_Some in Hv. by rewrite cumulative_length in Hv.
    - by rewrite (cumulative_lookup _ _ _ _ Hv). }
  split; [|split].
  - by apply listLocksInfo_run.
  - done.
  - intros i j v v' Hv Hv' Hij.
    apply Hrun in Hv as [_ ->]. apply Hrun in Hv' as [_ ->].
    exists (drop (S i) (take (S j) full)).
    rewrite <- (take_drop (S i) (take (S j) full)) at 1.
    rewrite take_take. by replace (S i `min` S j)%nat with (S i) by lia.
Qed.

Lemma listLocksInfo_object_run_witness :
  let out := listLocksInfo ascending (fun _ => ascending) tableTwoOps 1000
                           "b" "" 0 in
  let run := entriesOf (NsParam "b" "o") out in
  let full := detailOf 1000 <$>
                filter (fun r => oldEnough 1000 0 r)
                       (range (ascending : rangeOrder string debugLockInfo)
                              (lockInfo twoOps)) in
  (∃ before after, out = before ++ run ++ after
                   ∧ entriesOf (NsParam "b" "o") before = []
                   ∧ entriesOf (NsParam "b" "o") after = [])
  ∧ (∀ j v, run !! j = Some v →
            (j < length full)%nat ∧ LockDetailsOnObject v = take (S j) full)
  ∧ (∀ i j v v', run !! i = Some v → run !! j = Some v' → (i ≤ j)%nat →
                 LockDetailsOnObject v `prefix_of` LockDetailsOnObject v').
Proof.
  apply (listLocksInfo_object_run ascending (fun _ => ascending) tableTwoOps
           1000 "b" "" 0 (NsParam "b" "o") twoOps).
  vm_compute. reflexivity.
Defined.

(** X11.  When some record of an object passes the filters, the last of
    the object's entries carries all the records of the object that pass,
    each once, with the object's counters. *)
Theorem listLocksInfo_last_entry ro ri g timeNow bucket prefix relTime param dl :
  debugLockMap g !! param = Some dl →
  passingRecords timeNow bucket prefix relTime (param, dl) ≠ [] →
  ∃ v, last (entriesOf param
               (listLocksInfo ro ri g timeNow bucket prefix relTime)) = Some v
       ∧ lockKey v = param
       ∧ LocksOnObject v = total (obj_counters dl)
       ∧ TotalBlockedLocks v = blocked (obj_counters dl)
       ∧ LocksAcquiredOnObject v = granted (obj_counters dl)
       ∧ LockDetailsOnObject v
         ≡ₚ detailOf timeNow
              <$> passingRecords timeNow bucket prefix relTime (param, dl).
Proof.
  intros Hlk Hne.
  rewrite (entriesOf_listLocksInfo _ _ _ _ _ _ _ _ _ Hlk).
  unfold objectEntries, passingRecords in *. simpl in *.
  destruct (matchesObject bucket prefix param); [|done].
  set (recs := filter (fun r => oldEnough timeNow relTime r)
                      (range (ri param) (lockInfo dl))).
  assert (recs ≡ₚ filter (fun r => oldEnough timeNow relTime r)
                         (map_to_list (lockInfo dl))) as Hperm
    by (unfold recs; by rewrite (range_visits_once (ri param))).
  exists (foldl appendDetail (objectInfo param dl) (detailOf timeNow <$> recs)).
  rewrite cumulative_final, lockKey_objectInfo, foldl_appendDetail. simpl.
  repeat split; try done.
  - destruct recs as [|rec recs']; [|done].
    apply Permutation_nil_l in Hperm. by destruct Hne.
  - by rewrite Hperm.
Qed.

Lemma listLocksInfo_last_entry_witness :
  ∃ v, last (entriesOf (NsParam "b" "o")
               (listLocksInfo ascending (fun _ => ascending) tableTwoOps 1000
                              "b" "" 850)) = Some v
       ∧ lockKey v = NsParam "b" "o"
       ∧ LocksOnObject v = total (obj_counters twoOps)
       ∧ TotalBlockedLocks v = blocked (obj_counters twoOps)
       ∧ LocksAcquiredOnObject v = granted (obj_counters twoOps)
       ∧ LockDetailsOnObject v
         ≡ₚ detailOf 1000
              <$> passingRecords 1000 "b" "" 850 (NsParam "b" "o", twoOps).
Proof.
  apply (listLocksInfo_last_entry ascending (fun _ => ascending) tableTwoOps
           1000 "b" "" 850 (NsParam "b" "o") twoOps).
  - vm_compute. reflexivity.
  - vm_compute. discriminate.
Defined.

(** X12.  The two inspectors agree on an object: with [relTime] at the
    least [Duration], the entry [getSystemLockState] builds for an object
    of the bucket under the prefix that some operation holds is one of the
    entries [listLocksInfo] returns, the two calls taking the same sample
    and meeting the object's records in the same order. *)
Theorem getSystemLockState_entry_in_listLocksInfo ro ro' ri g timeNow
    bucket prefix relTime v :
  relTime <= time.minDuration →
  v ∈ LocksInfoPerObject (getSystemLockState ro ri g timeNow).1 →
  Bucket v = bucket → String.prefix prefix (Object v) = true →
  LockDetailsOnObject v ≠ [] →
  v ∈ listLocksInfo ro' ri g timeNow bucket prefix relTime.
Proof.
  intros Hrel Hv HB HP Hne.
  rewrite getSystemLockState_closed in Hv. simpl in Hv.
  apply list_elem_of_fmap in Hv as ([param dl] & -> & Hin%range_lookup).
  rewrite objectState_closed in HB, HP, Hne. simpl in HB, HP, Hne.
  apply elem_of_listLocksInfo. exists param, dl. split; [done|].
  apply objectEntries_elem. split; [by apply matchesObject_spec|].
  cbv zeta.
  rewrite filter_all.
  2: { intros rec _. apply oldEnough_spec.
       pose proof (Sub_bounds timeNow (since rec.2)). lia. }
  set (full := detailOf timeNow <$> range (ri param) (lockInfo dl)) in *.
  assert (0 < length full)%nat as Hpos by (destruct full; [done | simpl; lia]).
  exists (pred (length full)). split; [lia|].
  by rewrite take_ge by lia.
Qed.

Lemma getSystemLockState_entry_in_listLocksInfo_witness :
  objectState (fun _ => ascending) 5 (NsParam "b" "o", oneOpAhead)
  ∈ listLocksInfo descending (fun _ => ascending) tableAhead 5
                  "b" "" time.minDuration.
Proof.
  apply (getSystemLockState_entry_in_listLocksInfo ascending descending
           (fun _ => ascending) tableAhead 5 "b" "" time.minDuration).
  - vm_compute. discriminate.
  - vm_compute. apply list_elem_of_here.
  - reflexivity.
  - reflexivity.
  - vm_compute. discriminate.
Defined.
(** ** The registry as the endpoint list grows *)

Section RegistryGrowth.

Variable globalMinioAddr : string.
Variable serverCred : credential.
Variable isSSL : bool.
Variable adminServiceEndpoint : string.
Variable newAuthRPCClient : authConfig → AuthRPCClient.

Let step :=
  makeAdminPeers_step serverCred isSSL adminServiceEndpoint newAuthRPCClient.
Let init : adminPeers * gmap string bool :=
  ([localPeer globalMinioAddr], <[globalMinioAddr := true]> ∅).
Let registry :=
  makeAdminPeers globalMinioAddr serverCred isSSL adminServiceEndpoint
                 newAuthRPCClient.

(** A pass of the loop leaves the peers found so far in place. *)
Lemma makeAdminPeers_step_grows st ep :
  (step st ep).1 = st.1 ∨ ∃ p, (step st ep).1 = st.1 ++ [p].
Proof.
  destruct st as [peers seen]. unfold step, makeAdminPeers_step.
  destruct (bool_decide (Host ep = ""%string)); [by left|].
  destruct (negb (default false (seen !! Host ep))); [right; by eexists | by left].
Qed.

Lemma makeAdminPeers_loop_grows st eps :
  st.1 `prefix_of` (foldl step st eps).1
  ∧ (length (foldl step st eps).1 ≤ length st.1 + length eps)%nat.
Proof.
  revert st. induction eps as [|ep eps IH]; intros st; simpl.
  - split; [done | lia].
  - destruct (IH (step st ep)) as [Hpre Hlen].
    destruct (makeAdminPeers_step_grows st ep) as [Heq | [p Heq]];
      rewrite Heq in Hpre, Hlen.
    + split; [done | lia].
    + split; [by eapply prefix_app_l | rewrite length_app in Hlen; simpl in Hlen; lia].
Qed.

(** An endpoint with no host, or one whose host has been seen, leaves the
    state of the loop as it is. *)
Lemma makeAdminPeers_step_absorbs st ep :
  Host ep = ""%string ∨ default false (st.2 !! Host ep) = true →
  step st ep = st.
Proof.
  destruct st as [peers seen]. unfold step, makeAdminPeers_step. simpl.
  intros [-> | ->]; [done|].
  by destruct (bool_decide (Host ep = ""%string)).
Qed.

Lemma makeAdminPeers_loop_absorbs st eps :
  (∀ ep, ep ∈ eps →
         Host ep = ""%string ∨ default false (st.2 !! Host ep) = true) →
  foldl step st eps = st.
Proof.
  induction eps as [|ep eps IH]; intros Hknown; simpl; [done|].
  rewrite makeAdminPeers_step_absorbs by (apply Hknown; left).
  apply IH. intros ep' Hin. apply Hknown. by right.
Qed.

Lemma makeAdminPeers_seen eps h :
  default false ((foldl step init eps).2 !! h) = true
  ↔ h = globalMinioAddr ∨ (h ≠ ""%string ∧ h ∈ Host <$> eps).
Proof.
  pose proof (makeAdminPeers_inv globalMinioAddr serverCred isSSL
                adminServiceEndpoint newAuthRPCClient eps) as Hinv.
  change (registryInv globalMinioAddr serverCred isSSL adminServiceEndpoint
            newAuthRPCClient eps (foldl step init eps)) in Hinv.
  destruct Hinv as (Haddr & Hseen & _). rewrite Hseen, Haddr.
  unfold registryAddrs. rewrite elem_of_firstOccurrences, elem_of_cons.
  by rewrite list_elem_of_filter.
Qed.

(** The registry is the local peer followed by remote peers. *)
Lemma makeAdminPeers_shape eps :
  ∃ remotePeers,
    registry eps = localPeer globalMinioAddr :: remotePeers
    ∧ ∀ p, p ∈ remotePeers → ∃ rc, cmdRunner p = remoteAdminClient rc.
Proof.
  pose proof (makeAdminPeers_inv globalMinioAddr serverCred isSSL
                adminServiceEndpoint newAuthRPCClient eps) as Hinv.
  change (registryInv globalMinioAddr serverCred isSSL adminServiceEndpoint
            newAuthRPCClient eps (foldl step init eps)) in Hinv.
  destruct Hinv as (_ & _ & Hloc & Hrem).
  change (registry eps) with (foldl step init eps).1.
  destruct (foldl step init eps).1 as [|p0 remotePeers]; [done|].
  injection Hloc as ->. exists remotePeers. split; [done|].
  intros p (i & Hi)%list_elem_of_lookup_1.
  destruct (Hrem i p Hi) as [-> _]. by eexists.
Qed.

(** X13.  Endpoints added at the end of the list leave the peers of the
    shorter list where they are: the registry of [eps] is a prefix of the
    registry of [eps ++ eps'].  It never holds more than one peer per
    endpoint besides the local one, and never fewer than the local one. *)
Theorem makeAdminPeers_grows (eps eps' : list URL) :
  registry eps `prefix_of` registry (eps ++ eps')
  ∧ (1 ≤ length (registry eps) ≤ 1 + length eps)%nat.
Proof.
  change (registry (eps ++ eps')) with (foldl step init (eps ++ eps')).1.
  change (registry eps) with (foldl step init eps).1. split.
  - rewrite foldl_app. apply makeAdminPeers_loop_grows.
  - destruct (makeAdminPeers_loop_grows init eps) as [[k Hpre] Hlen].
    rewrite Hpre in Hlen |- *. simpl in *. lia.
Qed.

(** X14.  Endpoints that bring no new host change nothing: when every
    endpoint of [eps'] has an empty host, the local address, or a host of
    [eps], the registry of [eps ++ eps'] is that of [eps]. *)
Theorem makeAdminPeers_known_endpoints (eps eps' : list URL) :
  (∀ ep, ep ∈ eps' →
         Host ep = ""%string ∨ Host ep = globalMinioAddr
         ∨ Host ep ∈ Host <$> eps) →
  registry (eps ++ eps') = registry eps.
Proof.
  intros Hknown.
  change (registry (eps ++ eps')) with (foldl step init (eps ++ eps')).1.
  change (registry eps) with (foldl step init eps).1.
  rewrite foldl_app. f_equal. apply makeAdminPeers_loop_absorbs.
  intros ep Hin. destruct (decide (Host ep = ""%string)) as [?|Hne]; [by left|].
  right. apply makeAdminPeers_seen.
  destruct (Hknown ep Hin) as [? | [? | ?]]; [done | by left | by right].
Qed.

(** X15.  Which peers the registry holds does not depend on the order of
    the endpoints: two lists with the same endpoints give registries with
    the same addresses, each once, and the same number of peers; the local
    peer is first in both. *)
Theorem makeAdminPeers_order_insensitive (eps eps' : list URL) :
  eps ≡ₚ eps' →
  addr <$> registry eps ≡ₚ addr <$> registry eps'
  ∧ length (registry eps) = length (registry eps')
  ∧ head (registry eps) = head (registry eps').
Proof.
  intros Hperm.
  assert (∀ l, addr <$> registry l = registryAddrs globalMinioAddr l) as Haddr.
  { intros l.
    by destruct (makeAdminPeers_inv globalMinioAddr serverCred isSSL
                   adminServiceEndpoint newAuthRPCClient l) as (? & _). }
  assert (addr <$> registry eps ≡ₚ addr <$> registry eps') as Hp.
  { rewrite !Haddr. apply NoDup_Permutation; [apply NoDup_firstOccurrences..|].
    intros h. unfold registryAddrs. rewrite !elem_of_firstOccurrences.
    by rewrite Hperm. }
  split; [done|]. split.
  - apply Permutation_length in Hp. by rewrite !length_fmap in Hp.
  - destruct (makeAdminPeers_shape eps) as (rs & -> & _).
    by destruct (makeAdminPeers_shape eps') as (rs' & -> & _).
Qed.

(** X16.  Whatever the endpoints, a service command sent to the registry
    does not panic and reaches the local process once: the command is
    posted on the signal channel a single time, after the remote calls, and
    slot 0 of [errs] is nil. *)
Theorem sendServiceCmd_registry (eps : list URL) (globalAdminPeers : adminPeers)
    (cmd : serviceSignal) (ch : list serviceSignal) :
  let peers :=
    initGlobalAdminPeers globalMinioAddr serverCred isSSL adminServiceEndpoint
                         newAuthRPCClient eps globalAdminPeers in
  sendServiceCmd peers cmd ch = Some (ch ++ [cmd])
  ∧ sendServiceCmd_errs peers cmd ch
    = Some (None :: (serviceOutcome cmd <$> tail peers), ch ++ [cmd]).
Proof.
  intros peers. subst peers. unfold initGlobalAdminPeers.
  change (makeAdminPeers _ _ _ _ _ eps) with (registry eps).
  destruct (makeAdminPeers_shape eps) as (remotePeers & -> & Hrem).
  unfold sendServiceCmd. rewrite sendServiceCmd_errs_closed.
  assert (mjoin (posted cmd <$> remotePeers) = []) as ->.
  { clear -Hrem. induction remotePeers as [|p ps IH]; [done|].
    rewrite fmap_cons. simpl. rewrite IH by (intros q Hq; apply Hrem; by right).
    destruct (Hrem p) as [rc Hrc]; [left|]. unfold posted. by rewrite Hrc. }
  done.
Qed.

End RegistryGrowth.

Lemma makeAdminPeers_order_insensitive_witness :
  let registry := makeAdminPeers "n1:9000" (Credential "key" "secret") true
                                 "minio/admin" exampleClient in
  addr <$> registry exampleEndpoints ≡ₚ addr <$> registry (reverse exampleEndpoints)
  ∧ length (registry exampleEndpoints) = length (registry (reverse exampleEndpoints))
  ∧ head (registry exampleEndpoints) = head (registry (reverse exampleEndpoints)).
Proof.
  apply (makeAdminPeers_order_insensitive "n1:9000" (Credential "key" "secret")
           true "minio/admin" exampleClient
           exampleEndpoints (reverse exampleEndpoints)).
  symmetry. apply reverse_Permutation.
Defined.

Lemma makeAdminPeers_known_endpoints_witness :
  makeAdminPeers "n1:9000" (Credential "key" "secret") true "minio/admin"
                 exampleClient
                 ([mkURL "n2:9000"; mkURL "n3:9000"] ++ exampleEndpoints)
  = makeAdminPeers "n1:9000" (Credential "key" "secret") true "minio/admin"
                   exampleClient [mkURL "n2:9000"; mkURL "n3:9000"].
Proof.
  apply (makeAdminPeers_known_endpoints "n1:9000" (Credential "key" "secret")
           true "minio/admin" exampleClient
           [mkURL "n2:9000"; mkURL "n3:9000"] exampleEndpoints).
  intros ep Hin. unfold exampleEndpoints in Hin.
  repeat (apply elem_of_cons in Hin as [-> | Hin]);
    try (by left); try (by right; left);
    try (right; right; vm_compute;
         first [ apply list_elem_of_here
               | apply list_elem_of_further, list_elem_of_here ]).
  by apply elem_of_nil in Hin.
Defined.

(** ** The fan-out on any list of peers *)

Lemma occurrences_cons_None e errs :
  occurrences e (None :: errs) = occurrences e errs.
Proof. unfold occurrences. by rewrite filter_cons_False. Qed.

Lemma occurrences_le_length e errs : (occurrences e errs ≤ length errs)%nat.
Proof. unfold occurrences. apply length_filter. Qed.


(** X18.  With the local runner in front, as in every registry, an error
    other than [InsufficientReadQuorum] is returned only when more than
    half of all the peers are remote peers that returned it; with one
    remote peer or none, no other error is ever returned, whatever that
    peer answered. *)
Theorem listPeerLocksInfo_local_first ro ri g timeNow re rg
    (cp0 : adminPeer) (remotePeers : adminPeers)
    (bucket prefix : string) (relTime : time.Duration) :
  cmdRunner cp0 = localAdminClient →
  let res := listPeerLocksInfo ro ri g timeNow re rg (cp0 :: remotePeers)
                               bucket prefix relTime in
  let remoteErrs :=
    peerErr ro ri g timeNow bucket prefix relTime <$> remotePeers in
  (∀ l e, res = Some (l, Some e) →
          l = None
          ∧ (e = InsufficientReadQuorum
             ∨ (quorum (S (length remotePeers)) ≤ occurrences e remoteErrs)%nat))
  ∧ ((length remotePeers ≤ 1)%nat →
     ∀ l e, res = Some (l, Some e) → e = InsufficientReadQuorum).
Proof.
  intros Hlocal res remoteErrs.
  assert (peerErr ro ri g timeNow bucket prefix relTime <$> cp0 :: remotePeers
          = None :: remoteErrs) as Herrs.
  { rewrite fmap_cons. f_equal. unfold peerErr, ListLocks. by rewrite Hlocal. }
  assert (∀ l e, res = Some (l, Some e) →
          l = None
          ∧ (e = InsufficientReadQuorum
             ∨ (quorum (S (length remotePeers)) ≤ occurrences e remoteErrs)%nat))
    as Hgen.
  { intros l e Hres. subst res.
    destruct (errs_dichotomy (None :: remoteErrs)) as [Hnone | [e0 He0]].
    - rewrite listPeerLocksInfo_no_error in Hres; [done..|by rewrite Herrs].
    - rewrite <- Herrs in He0.
      destruct (listPeerLocksInfo_some_error ro ri g timeNow re rg bucket prefix
                  relTime (cp0 :: remotePeers) e0) as (e1 & _ & _ & Heq);
        [done..|].
      rewrite Heq, Herrs, occurrences_cons_None in Hres. simpl length in Hres.
      destruct (Nat.leb_spec (quorum (S (length remotePeers)))
                             (occurrences e1 remoteErrs)) as [Hq|Hq];
        injection Hres as <- <-; split; try done; [by right | by left]. }
  split; [done|].
  intros Hfew l e Hres. destruct (Hgen l e Hres) as [_ [-> | Hq]]; [done|].
  pose proof (occurrences_le_length e remoteErrs) as Hle.
  assert (length remoteErrs = length remotePeers) as Hlen
    by apply length_fmap.
  assert (length remotePeers < quorum (S (length remotePeers)))%nat as Hgt.
  { revert Hfew. generalize (length remotePeers).
    intros [|[|n]] Hn; [vm_compute; lia | vm_compute; lia | lia]. }
  lia.
Qed.

Lemma listPeerLocksInfo_local_first_witness :
  let res := listPeerLocksInfo ascending (fun _ => ascending) tableTwoOps 1000
               ascending ascending
               [localPeer "n1:9000"; refusing "n2:9000"] "b" "" 0 in
  let remoteErrs :=
    peerErr ascending (fun _ => ascending) tableTwoOps 1000 "b" "" 0
      <$> [refusing "n2:9000"] in
  (∀ l e, res = Some (l, Some e) →
          l = None
          ∧ (e = InsufficientReadQuorum
             ∨ (quorum 2 ≤ occurrences e remoteErrs)%nat))
  ∧ ((1 ≤ 1)%nat → ∀ l e, res = Some (l, Some e) → e = InsufficientReadQuorum).
Proof.
  apply (listPeerLocksInfo_local_first ascending (fun _ => ascending)
           tableTwoOps 1000 ascending ascending
           (localPeer "n1:9000") [refusing "n2:9000"] "b" "" 0).
  reflexivity.
Defined.

(** X19.  A registry none of whose endpoints names another host is the
    local peer alone, and listing the locks through it cannot fail: the
    result is the local list, regrouped, and no error. *)
Theorem listPeerLocksInfo_standalone globalMinioAddr serverCred isSSL
    adminServiceEndpoint newAuthRPCClient ro ri g timeNow re rg
    (eps : list URL) (bucket prefix : string) (relTime : time.Duration) :
  (∀ ep, ep ∈ eps → Host ep = ""%string ∨ Host ep = globalMinioAddr) →
  let peers := makeAdminPeers globalMinioAddr serverCred isSSL
                              adminServiceEndpoint newAuthRPCClient eps in
  peers = [localPeer globalMinioAddr]
  ∧ ∃ merged,
      listPeerLocksInfo ro ri g timeNow re rg peers bucket prefix relTime
      = Some (Some merged, None)
      ∧ merged ≡ₚ listLocksInfo ro ri g timeNow bucket prefix relTime.
Proof.
  intros Hlocal peers.
  assert (peers = [localPeer globalMinioAddr]) as ->.
  { subst peers. unfold makeAdminPeers.
    rewrite (makeAdminPeers_loop_absorbs serverCred isSSL adminServiceEndpoint
               newAuthRPCClient); [done|].
    intros ep Hin. destruct (Hlocal ep Hin) as [? | ->]; [by left|].
    right. simpl. by rewrite lookup_insert_eq. }
  split; [done|].
  exists (mergeLocks rg [listLocksInfo ro ri g timeNow bucket prefix relTime]).
  split.
  - rewrite listPeerLocksInfo_no_error; [done..|].
    intros e Hin. by apply list_elem_of_singleton in Hin.
  - rewrite mergeLocks_Permutation. simpl. by rewrite app_nil_r.
Qed.

Lemma listPeerLocksInfo_standalone_witness :
  let peers := makeAdminPeers "n1:9000" (Credential "key" "secret") true
                              "minio/admin" exampleClient
                              [mkURL ""; mkURL "n1:9000"] in
  peers = [localPeer "n1:9000"]
  ∧ ∃ merged,
      listPeerLocksInfo ascending (fun _ => ascending) tableTwoOps 1000
                        ascending ascending peers "b" "" 0
      = Some (Some merged, None)
      ∧ merged ≡ₚ listLocksInfo ascending (fun _ => ascending) tableTwoOps 1000
                                "b" "" 0.
Proof.
  apply (listPeerLocksInfo_standalone "n1:9000" (Credential "key" "secret") true
           "minio/admin" exampleClient ascending (fun _ => ascending)
           tableTwoOps 1000 ascending ascending
           [mkURL ""; mkURL "n1:9000"] "b" "" 0).
  intros ep Hin.
  repeat (apply elem_of_cons in Hin as [-> | Hin]);
    [by left | by right | by apply elem_of_nil in Hin].
Defined.

(** ** The grouping of the merged list *)







(** ** Adding to the multipart ledger *)

(** X21.  [addUploadID]: a read error whose cause is not [io.EOF] is
    returned and nothing is written; in every other case the ledger is
    written once and the result is that of the write.  The ledger written
    is the one read with the upload id added, or, when the cause of the
    read error is [io.EOF], a new ledger with the upload id added, whatever
    the read left behind.  The file is never deleted. *)
Theorem addUploadID_outcomes (uploadsV1 : Type)
    (newUploadsV1 : string → uploadsV1)
    (AddUploadID : string → time.Time → uploadsV1 → uploadsV1)
    (errorCause : option error → option error) (EOF : error)
    (fs : fsObjects) (bucket object uploadID : string) (initiated : time.Time)
    (uploadIDs : uploadsV1) (err writeErr : option error) :
  let res := addUploadID uploadsV1 newUploadsV1 AddUploadID errorCause EOF
                         fs bucket object uploadID initiated
                         (uploadIDs, err) writeErr in
  (err ≠ None → errorCause err ≠ Some EOF → res = (err, []))
  ∧ (errorCause err = Some EOF →
     res = (writeErr,
            [effWriteTo (AddUploadID uploadID initiated (newUploadsV1 "fs"))]))
  ∧ (err = None → errorCause err ≠ Some EOF →
     res = (writeErr, [effWriteTo (AddUploadID uploadID initiated uploadIDs)]))
  ∧ (res.2 = [] ↔ err ≠ None ∧ errorCause err ≠ Some EOF)
  ∧ (∀ eff, eff ∈ res.2 → ∃ u, eff = effWriteTo u).
Proof.
  intros res. subst res. unfold addUploadID.
  repeat case_bool_decide; simpl; repeat split; try done; try tauto.
  all: try (intros eff Hin; apply list_elem_of_singleton in Hin; by eexists).
  all: try (intros eff Hin; by apply elem_of_nil in Hin).
Qed.

Lemma addUploadID_outcomes_witness :
  addUploadID listLedger (fun _ => []) listLedger_add plainCause
              (errOther "EOF") (FsObjects "/export") "b" "o" "id2" 7
              ([("id1"%string, 3)], Some (errOther "disk failure")) None
  = (Some (errOther "disk failure"), [])
  ∧ addUploadID listLedger (fun _ => []) listLedger_add plainCause
                (errOther "EOF") (FsObjects "/export") "b" "o" "id2" 7
                ([("id1"%string, 3)], Some (errOther "EOF")) None
    = (None, [effWriteTo (listLedger_add "id2" 7 [])])
  ∧ addUploadID listLedger (fun _ => []) listLedger_add plainCause
                (errOther "EOF") (FsObjects "/export") "b" "o" "id2" 7
                ([("id1"%string, 3)], None) None
    = (None, [effWriteTo (listLedger_add "id2" 7 [("id1"%string, 3)])]).
Proof.
  split; [|split].
  - apply (addUploadID_outcomes listLedger (fun _ => []) listLedger_add
             plainCause (errOther "EOF") (FsObjects "/export") "b" "o" "id2" 7
             [("id1"%string, 3)] (Some (errOther "disk failure")) None);
      discriminate.
  - apply (addUploadID_outcomes listLedger (fun _ => []) listLedger_add
             plainCause (errOther "EOF") (FsObjects "/export") "b" "o" "id2" 7
             [("id1"%string, 3)] (Some (errOther "EOF")) None).
    reflexivity.
  - apply (addUploadID_outcomes listLedger (fun _ => []) listLedger_add
             plainCause (errOther "EOF") (FsObjects "/export") "b" "o" "id2" 7
             [("id1"%string, 3)] None None);
      [reflexivity | discriminate].
Defined.

(** X22.  Adding an upload id to a ledger file that reads as empty and
    then removing it leaves no file: given that the new ledger with one id
    added and removed is empty, [addUploadID] writes the one-id ledger, and
    [removeUploadID], reading it back, deletes [uploads.json] and writes
    nothing. *)
Theorem addUploadID_then_removeUploadID (uploadsV1 : Type)
    (newUploadsV1 : string → uploadsV1)
    (AddUploadID : string → time.Time → uploadsV1 → uploadsV1)
    (RemoveUploadID : string → uploadsV1 → uploadsV1)
    (IsEmpty : uploadsV1 → bool)
    (errorCause : option error → option error) (EOF : error)
    (pathJoin : list string → string)
    (uploadsJSONFile minioMetaMultipartBucket : string)
    (fs : fsObjects) (bucket object uploadID : string) (initiated : time.Time)
    (partial : uploadsV1) (err : option error)
    (writeErr deleteErr writeErr' : option error) :
  errorCause err = Some EOF →
  IsEmpty (RemoveUploadID uploadID
             (AddUploadID uploadID initiated (newUploadsV1 "fs"))) = true →
  ∃ written,
    addUploadID uploadsV1 newUploadsV1 AddUploadID errorCause EOF
                fs bucket object uploadID initiated (partial, err) writeErr
    = (writeErr, [effWriteTo written])
    ∧ removeUploadID pathJoin uploadsJSONFile minioMetaMultipartBucket
                     uploadsV1 RemoveUploadID IsEmpty
                     fs bucket object uploadID (written, None)
                     deleteErr writeErr'
      = (deleteErr,
         [effDeleteFile
            (pathJoin [fsPath fs; minioMetaMultipartBucket])
            (pathJoin [pathJoin [fsPath fs; minioMetaMultipartBucket];
                       pathJoin [bucket; object; uploadsJSONFile]])]).
Proof.
  intros Heof Hempty.
  exists (AddUploadID uploadID initiated (newUploadsV1 "fs")). split.
  - unfold addUploadID.
    rewrite (bool_decide_eq_false_2 (errorCause err ≠ Some EOF))
      by (intros H; by apply H).
    rewrite andb_false_r. by rewrite (bool_decide_eq_true_2 _ Heof).
  - unfold removeUploadID. by rewrite Hempty.
Qed.

Lemma addUploadID_then_removeUploadID_witness :
  ∃ written,
    addUploadID listLedger (fun _ => []) listLedger_add plainCause
                (errOther "EOF") (FsObjects "/export") "b" "o" "id1" 7
                ([], Some (errOther "EOF")) None
    = (None, [effWriteTo written])
    ∧ removeUploadID (String.concat "/") "uploads.json" ".minio.sys/multipart"
                     listLedger listLedger_remove listLedger_isEmpty
                     (FsObjects "/export") "b" "o" "id1" (written, None)
                     None None
      = (None,
         [effDeleteFile
            (String.concat "/" ["/export"; ".minio.sys/multipart"]%string)
            (String.concat "/"
               [String.concat "/" ["/export"; ".minio.sys/multipart"];
                String.concat "/" ["b"; "o"; "uploads.json"]]%string)]).
Proof.
  apply (addUploadID_then_removeUploadID listLedger (fun _ => []) listLedger_add
           listLedger_remove listLedger_isEmpty plainCause (errOther "EOF")
           (String.concat "/") "uploads.json" ".minio.sys/multipart"
           (FsObjects "/export") "b" "o" "id1" 7 [] (Some (errOther "EOF"))
           None None None);
    reflexivity.
Defined.
